(** * GlitchMixer: the animated-GIF hook [useAnimatedGif]

    A shallow embedding of [src/hooks/useAnimatedGif.ts]: the compositor
    inside [loadGif], the playback callbacks [play] / [animate] / [pause] /
    [reset], the renderer [renderToCanvas] and the exporter [generateGif],
    together with the part of the browser they talk to (2D canvases,
    [ImageData], the animation-frame callback list).

    Conventions.
    - Sizes, coordinates, array indices, palette indices and the frame cursor
      are [nat]: the code only ever produces them as lengths, decoder fields
      (unsigned in the GIF container), [0] or a remainder [% length].
    - Delays, timestamps and colour components are [Z].  The source holds
      times as doubles; here they are whole milliseconds, on which the sums
      and differences the code forms are exact.  Nothing below speaks of
      fractional timestamps, whose sums round.
    - A pixel is the four consecutive bytes R, G, B, A of a
      [Uint8ClampedArray]; a bitmap is the row-major list of its pixels. *)

From Stdlib Require Import ZArith Lia String.
From stdpp Require Import base decidable option list numbers.

(** ** Pixels *)

Record RGBA := mkRGBA { red : Z; green : Z; blue : Z; alpha : Z }.

(** A freshly allocated typed array, a cleared rectangle and a new canvas all
    hold transparent black. *)
Definition transparentBlack : RGBA := mkRGBA 0 0 0 0.

(** Storing an integer into a [Uint8ClampedArray] clamps it to [0..255]. *)
Definition clamp8 (v : Z) : Z := Z.max 0 (Z.min 255 v).

Definition setAlpha (p : RGBA) (a : Z) : RGBA :=
  mkRGBA (red p) (green p) (blue p) (clamp8 a).

(** Straight-alpha "source-over" for one channel, used for the partially
    transparent case only; the compositor itself never produces an alpha
    other than 0 or 255. *)
Definition blendChannel (sc sa dc da ao : Z) : Z :=
  ((sc * sa * 255 + dc * da * (255 - sa)) / (ao * 255))%Z.

Definition sourceOver (s d : RGBA) : RGBA :=
  if (alpha s =? 255)%Z then s
  else if (alpha s =? 0)%Z then d
  else
    let ao := (alpha s + alpha d * (255 - alpha s) / 255)%Z in
    mkRGBA (blendChannel (red s) (alpha s) (red d) (alpha d) ao)
           (blendChannel (green s) (alpha s) (green d) (alpha d) ao)
           (blendChannel (blue s) (alpha s) (blue d) (alpha d) ao)
           ao.

(** ** Bitmaps: [ImageData] and the backing store of a canvas *)

Record ImageData := mkImageData {
  img_width : nat;
  img_height : nat;
  img_data : list RGBA
}.

Definition inside (w h x y : nat) : bool := (x <? w) && (y <? h).

(** Reading outside the bitmap yields transparent black, as [getImageData]
    does for the part of a rectangle that lies outside the canvas. *)
Definition getPixel (b : ImageData) (x y : nat) : RGBA :=
  if inside (img_width b) (img_height b) x y
  then default transparentBlack (img_data b !! (y * img_width b + x))
  else transparentBlack.

Definition tabulate (w h : nat) (f : nat → nat → RGBA) : ImageData :=
  {| img_width := w;
     img_height := h;
     img_data := (λ k, f (k mod w) (k / w)) <$> seq 0 (w * h) |}.

Definition blank (w h : nat) : ImageData :=
  tabulate w h (λ _ _, transparentBlack).

Definition inRect (x0 y0 w h x y : nat) : bool :=
  (x0 <=? x) && (x <? x0 + w) && (y0 <=? y) && (y <? y0 + h).

(** [ctx.clearRect(x0, y0, w, h)] *)
Definition clearRect (c : ImageData) (x0 y0 w h : nat) : ImageData :=
  tabulate (img_width c) (img_height c)
    (λ x y, if inRect x0 y0 w h x y then transparentBlack else getPixel c x y).

(** [ctx.putImageData(img, dx, dy)]: the rectangle is replaced, with no
    blending. *)
Definition putImageData (c img : ImageData) (dx dy : nat) : ImageData :=
  tabulate (img_width c) (img_height c)
    (λ x y, if inRect dx dy (img_width img) (img_height img) x y
            then getPixel img (x - dx) (y - dy)
            else getPixel c x y).

(** [ctx.drawImage(src, dx, dy)]: the whole of [src] is composited onto the
    canvas with the default "source-over" operator. *)
Definition drawImage (c src : ImageData) (dx dy : nat) : ImageData :=
  tabulate (img_width c) (img_height c)
    (λ x y, if inRect dx dy (img_width src) (img_height src) x y
            then sourceOver (getPixel src (x - dx) (y - dy)) (getPixel c x y)
            else getPixel c x y).

(** [ctx.getImageData(0, 0, w, h)]: a fresh copy. *)
Definition getImageData (c : ImageData) (w h : nat) : ImageData :=
  tabulate w h (getPixel c).

(** A bitmap whose pixel list has exactly [width * height] entries. *)
Definition wellSized (b : ImageData) : Prop :=
  length (img_data b) = img_width b * img_height b.

(** ** What the decoder (gifuct-js, [decompressFrames(gif, true)]) hands over *)

Module Gifuct.

Record Dims := mkDims { width : nat; height : nat; left : nat; top : nat }.

Record ParsedFrame := mkParsedFrame {
  dims : Dims;
  pixels : list nat;
  transparentIndex : option nat;
  disposalType : nat;
  colorTable : list (Z * Z * Z);
  delay : Z
}.

End Gifuct.

(** ** The hook's state *)

Record Frame := mkFrame { imageData : ImageData; delay : Z }.

Record AnimatedGifState := mkState {
  frames : list Frame;
  width : nat;
  height : nat;
  currentFrameIndex : nat;
  isPlaying : bool;
  originalDelays : list Z;
  isLoading : bool;
  error : option string
}.

(** [useState] initial value. *)
Definition initialState : AnimatedGifState :=
  {| frames := []; width := 0; height := 0; currentFrameIndex := 0;
     isPlaying := false; originalDelays := []; isLoading := false;
     error := None |}.

(** ** The compositor: the frame loop of [loadGif] *)

(** [frame.delay || 100] *)
Definition delayOrDefault (d : Z) : Z := if (d =? 0)%Z then 100%Z else d.

(** The body of the inner loop for pixel [j], as an update of the four bytes
    [patchData[j*4 .. j*4+3]]: the transparent branch stores the alpha byte
    only, the other branch stores all four. *)
Definition expandPixel (frame : Gifuct.ParsedFrame) (colorIndex : nat)
    (old : RGBA) : RGBA :=
  if decide (Some colorIndex = Gifuct.transparentIndex frame)
  then setAlpha old 0
  else
    let '(r, g, b) :=
      default (0, 0, 0)%Z (Gifuct.colorTable frame !! colorIndex) in
    mkRGBA (clamp8 r) (clamp8 g) (clamp8 b) (clamp8 255).

(** [for (let j = 0; j < frame.pixels.length; j++) ...], started at [j].
    A store past the end of a typed array is ignored, which is what
    [alter] does on a list. *)
Fixpoint fillPatch (frame : Gifuct.ParsedFrame) (px : list nat) (j : nat)
    (patchData : list RGBA) : list RGBA :=
  match px with
  | [] => patchData
  | colorIndex :: rest =>
      fillPatch frame rest (S j) (alter (expandPixel frame colorIndex) j patchData)
  end.

(** [new Uint8ClampedArray(patchWidth * patchHeight * 4)] after the loop. *)
Definition patchData (frame : Gifuct.ParsedFrame) : list RGBA :=
  let d := Gifuct.dims frame in
  fillPatch frame (Gifuct.pixels frame) 0
    (replicate (Gifuct.width d * Gifuct.height d) transparentBlack).

(** [new ImageData(data, w, h)] throws when a side is zero (and would throw
    when the length does not fit, which cannot happen for [patchData]). *)
Definition newImageData (data : list RGBA) (w h : nat) : option ImageData :=
  if (w =? 0) || (h =? 0) then None
  else if length data =? w * h then Some (mkImageData w h data)
  else None.

(** The disposal step at the top of the loop body; [prev] is [frames[i-1]],
    absent when [i = 0]. *)
Definition applyDisposal (w h : nat) (prev : option Gifuct.ParsedFrame)
    (previousImageData : option ImageData) (ctx : ImageData) : ImageData :=
  match prev with
  | Some p =>
      if Gifuct.disposalType p =? 2 then clearRect ctx 0 0 w h
      else
        match previousImageData with
        | Some img =>
            if negb (Gifuct.disposalType p =? 3)
            then putImageData ctx img 0 0
            else ctx
        | None => ctx
        end
  | None => clearRect ctx 0 0 w h
  end.

Module Compose.
(** The variables the frame loop carries from one iteration to the next. *)
Record Vars := mkVars {
  ctx : ImageData;                      (* bitmap of [tempCanvasRef.current] *)
  patchCtx : ImageData;                 (* bitmap of [patchCanvas] *)
  previousImageData : option ImageData;
  processedFrames : list Frame;
  originalDelays : list Z
}.

Definition start (w h : nat) : Vars :=
  {| ctx := blank w h; patchCtx := blank w h; previousImageData := None;
     processedFrames := []; originalDelays := [] |}.
End Compose.

(** The patch canvas after [patchCtx.putImageData(patchImageData, 0, 0)];
    it is never cleared between frames. *)
Definition stampPatch (patchCtx patchImageData : ImageData) : ImageData :=
  putImageData patchCtx patchImageData 0 0.

(** One iteration of the frame loop; [None] when the iteration throws. *)
Definition processFrame (w h : nat) (prev : option Gifuct.ParsedFrame)
    (frame : Gifuct.ParsedFrame) (v : Compose.Vars) : option Compose.Vars :=
  let ctx1 :=
    applyDisposal w h prev (Compose.previousImageData v) (Compose.ctx v) in
  let d := Gifuct.dims frame in
  match newImageData (patchData frame) (Gifuct.width d) (Gifuct.height d) with
  | None => None
  | Some patchImageData =>
      let patchCtx' := stampPatch (Compose.patchCtx v) patchImageData in
      let ctx2 := drawImage ctx1 patchCtx' (Gifuct.left d) (Gifuct.top d) in
      (* getImageData throws on an empty rectangle *)
      if (w =? 0) || (h =? 0) then None
      else
        let dl := delayOrDefault (Gifuct.delay frame) in
        Some {| Compose.ctx := ctx2;
                Compose.patchCtx := patchCtx';
                Compose.previousImageData := Some (getImageData ctx2 w h);
                Compose.processedFrames :=
                  Compose.processedFrames v
                    ++ [ {| imageData := getImageData ctx2 w h; delay := dl |} ];
                Compose.originalDelays := Compose.originalDelays v ++ [dl] |}
  end.

(** [for (let i = 0; i < frames.length; i++)] over the frames still to do. *)
Fixpoint processFrames (w h : nat) (prev : option Gifuct.ParsedFrame)
    (todo : list Gifuct.ParsedFrame) (v : Compose.Vars) : option Compose.Vars :=
  match todo with
  | [] => Some v
  | frame :: rest =>
      match processFrame w h prev frame v with
      | None => None
      | Some v' => processFrames w h (Some frame) rest v'
      end
  end.

(** The whole pass: canvas size from [frames[0].dims], both canvases fresh. *)
Definition composite (gifFrames : list Gifuct.ParsedFrame)
    : option (nat * nat * Compose.Vars) :=
  match gifFrames with
  | [] => None
  | first :: _ =>
      let w := Gifuct.width (Gifuct.dims first) in
      let h := Gifuct.height (Gifuct.dims first) in
      match processFrames w h None gifFrames (Compose.start w h) with
      | None => None
      | Some v => Some (w, h, v)
      end
  end.

(** ** The hook instance: React state, refs, and the browser's callback list *)

Definition Handle := positive.

(** The closure [animate] built by one call of [play]: it captures
    [state.frames] of that render and owns the mutable [localFrameIndex]. *)
Record AnimateClosure := mkClosure {
  closedFrames : list Frame;
  localFrameIndex : nat
}.

Record Hook := mkHook {
  state : AnimatedGifState;
  animationRef : option Handle;          (* [animationRef.current] *)
  lastTimeRef : Z;                       (* [lastTimeRef.current] *)
  frameTimeOffsetRef : Z;                (* [frameTimeOffsetRef.current] *)
  rafCallbacks : list (Handle * AnimateClosure);  (* the browser's list *)
  rafNextHandle : Handle
}.

Definition initialHook : Hook :=
  {| state := initialState; animationRef := None; lastTimeRef := 0;
     frameTimeOffsetRef := 0; rafCallbacks := []; rafNextHandle := 1%positive |}.

Definition setState (f : AnimatedGifState → AnimatedGifState) (h : Hook) : Hook :=
  mkHook (f (state h)) (animationRef h) (lastTimeRef h) (frameTimeOffsetRef h)
         (rafCallbacks h) (rafNextHandle h).

Definition setAnimationRef (r : option Handle) (h : Hook) : Hook :=
  mkHook (state h) r (lastTimeRef h) (frameTimeOffsetRef h)
         (rafCallbacks h) (rafNextHandle h).

Definition setLastTime (t : Z) (h : Hook) : Hook :=
  mkHook (state h) (animationRef h) t (frameTimeOffsetRef h)
         (rafCallbacks h) (rafNextHandle h).

Definition setFrameTimeOffset (t : Z) (h : Hook) : Hook :=
  mkHook (state h) (animationRef h) (lastTimeRef h) t
         (rafCallbacks h) (rafNextHandle h).

(** [requestAnimationFrame(animate)]: handles are positive, hence truthy. *)
Definition requestAnimationFrame (cl : AnimateClosure) (h : Hook)
    : Handle * Hook :=
  (rafNextHandle h,
   mkHook (state h) (animationRef h) (lastTimeRef h) (frameTimeOffsetRef h)
          (rafCallbacks h ++ [(rafNextHandle h, cl)])
          (Pos.succ (rafNextHandle h))).

Definition cancelAnimationFrame (id : Handle) (h : Hook) : Hook :=
  mkHook (state h) (animationRef h) (lastTimeRef h) (frameTimeOffsetRef h)
         (filter (λ e, e.1 ≠ id) (rafCallbacks h)) (rafNextHandle h).

(** [if (animationRef.current) { cancelAnimationFrame(animationRef.current);
    animationRef.current = null; }] *)
Definition cancelPending (h : Hook) : Hook :=
  match animationRef h with
  | Some id => setAnimationRef None (cancelAnimationFrame id h)
  | None => h
  end.

(** *** [loadGif] *)

(** What lies outside the hook during one load: the outcome of fetching and
    decoding, whether the two canvases yield a 2D context, and the message of
    the exception the canvas API raises for an empty rectangle. *)
Inductive Fetched :=
| FetchRejected (message : string)
| FetchNotOk (status statusText : string)
| BodyUnreadable
| Unparsable
| Decoded (gifFrames : list Gifuct.ParsedFrame).

Record Browser := mkBrowser {
  fetched : Fetched;
  tempCanvas2d : bool;
  patchCanvas2d : bool;
  exceptionMessage : string
}.

Definition fetchFailed (m : string) : string :=
  String.append "Failed to fetch GIF: " m.

Definition parseFailed : string :=
  "Failed to parse GIF format. Is this a valid GIF file?".

(** The [try] block from [fetch] on: the message of the error it throws, or
    the canvas size and the loop's final variables. *)
Definition tryLoad (b : Browser) : string + (nat * nat * Compose.Vars) :=
  match fetched b with
  | FetchRejected m => inl (fetchFailed m)
  | FetchNotOk status statusText =>
      inl (fetchFailed
             (fetchFailed (String.append status (String.append " " statusText))))
  | BodyUnreadable => inl "Failed to read GIF data"%string
  | Unparsable => inl parseFailed
  | Decoded [] => inl parseFailed
  | Decoded gifFrames =>
      if negb (tempCanvas2d b)
      then inl "Could not get 2D context from canvas"%string
      else if negb (patchCanvas2d b)
      then inl "Could not get 2D context from patch canvas"%string
      else
        match composite gifFrames with
        | None => inl (exceptionMessage b)
        | Some r => inr r
        end
  end.

(** Up to the first [await]: cancel the pending tick, the first [setState],
    and the first statement of the [try] block. *)
Definition loadGif_begin (h : Hook) : Hook :=
  setFrameTimeOffset 0
    (setState
       (λ prev,
          {| frames := []; width := width prev; height := height prev;
             currentFrameIndex := 0; isPlaying := false;
             originalDelays := originalDelays prev; isLoading := true;
             error := None |})
       (cancelPending h)).

(** The rest of the [try] / [catch], once fetching and decoding have
    settled. *)
Definition loadGif_settle (b : Browser) (h : Hook) : Hook * bool :=
  match tryLoad b with
  | inr (w, hgt, v) =>
      (setState
         (λ _,
            {| frames := Compose.processedFrames v; width := w; height := hgt;
               currentFrameIndex := 0; isPlaying := false;
               originalDelays := Compose.originalDelays v; isLoading := false;
               error := None |})
         h,
       true)
  | inl message =>
      (setState
         (λ prev,
            {| frames := frames prev; width := width prev;
               height := height prev;
               currentFrameIndex := currentFrameIndex prev;
               isPlaying := isPlaying prev;
               originalDelays := originalDelays prev; isLoading := false;
               error := Some message |})
         h,
       false)
  end.

(** A load during whose awaits nothing else happens.  Other calls, ticks
    and loads that fall between the two halves are runs of [Event]s with
    [LoadGifBegin] and [LoadGifSettle] apart. *)
Definition loadGif (b : Browser) (h : Hook) : Hook * bool :=
  loadGif_settle b (loadGif_begin h).

(** *** [renderToCanvas] *)

Record Canvas := mkCanvas { bitmap : ImageData; context2d : bool }.

(** Assigning [canvas.width] / [canvas.height] clears the canvas. *)
Definition resizeCanvas (c : Canvas) (w h : nat) : Canvas :=
  mkCanvas (blank w h) (context2d c).

Definition fitCanvas (s : AnimatedGifState) (c : Canvas) : Canvas :=
  if negb (img_width (bitmap c) =? width s)
     || negb (img_height (bitmap c) =? height s)
  then resizeCanvas c (width s) (height s)
  else c.

Definition drawFrame (c : Canvas) (f : Frame) : Canvas :=
  mkCanvas (putImageData (bitmap c) (imageData f) 0 0) (context2d c).

(** A caller-supplied effect either returns or throws, leaving the canvas in
    some state either way. *)
Inductive Completion := Returned (c : Canvas) | Threw (c : Canvas).

Definition Effects := Canvas → Completion.

Definition renderToCanvas (s : AnimatedGifState) (canvas : Canvas)
    (applyEffects : option Effects) : bool * Canvas :=
  if (length (frames s) =? 0) || (length (frames s) <=? currentFrameIndex s)
  then (false, canvas)
  else if negb (context2d canvas) then (false, canvas)
  else
    let canvas1 := fitCanvas s canvas in
    match frames s !! currentFrameIndex s with
    | None => (false, canvas1)
    | Some currentFrame =>
        let canvas2 := drawFrame canvas1 currentFrame in
        match applyEffects with
        | Some fx =>
            match fx canvas2 with
            | Returned c => (true, c)
            | Threw c => (false, c)
            end
        | None => (true, canvas2)
        end
    end.

(** *** Playback: [play], its [animate] closure, [pause], [reset] *)

Definition withPlaying (p : bool) (prev : AnimatedGifState) : AnimatedGifState :=
  {| frames := frames prev; width := width prev; height := height prev;
     currentFrameIndex := currentFrameIndex prev; isPlaying := p;
     originalDelays := originalDelays prev; isLoading := isLoading prev;
     error := error prev |}.

Definition withFrameIndex (i : nat) (prev : AnimatedGifState) : AnimatedGifState :=
  {| frames := frames prev; width := width prev; height := height prev;
     currentFrameIndex := i; isPlaying := isPlaying prev;
     originalDelays := originalDelays prev; isLoading := isLoading prev;
     error := error prev |}.

(** One run of the callback [animate] at [timestamp].  Reading
    [currentFrame.delay] of a missing frame throws after the offset has been
    bumped; the callback then ends without asking for another frame. *)
Definition animate (cl : AnimateClosure) (timestamp : Z) (h : Hook) : Hook :=
  match animationRef h with
  | None => h
  | Some _ =>
      let elapsed := (timestamp - lastTimeRef h)%Z in
      let h1 := setFrameTimeOffset (frameTimeOffsetRef h + elapsed)%Z h in
      match closedFrames cl !! localFrameIndex cl with
      | None => h1
      | Some currentFrame =>
          let '(cl2, h2) :=
            if (delay currentFrame <=? frameTimeOffsetRef h1)%Z then
              let next :=
                (localFrameIndex cl + 1) mod length (closedFrames cl) in
              (mkClosure (closedFrames cl) next,
               setState (withFrameIndex next)
                 (setFrameTimeOffset
                    (frameTimeOffsetRef h1 - delay currentFrame)%Z h1))
            else (cl, h1) in
          let h3 := setLastTime timestamp h2 in
          let '(id, h4) := requestAnimationFrame cl2 h3 in
          setAnimationRef (Some id) h4
      end
  end.

(** [play] is a [useCallback] closure: it reads [state] of the render that
    created it, not the hook's state at the time of the call.
    [playFrom render now] is the [play] of a render that saw the state
    [render], called when [performance.now()] reads [now]. *)
Definition playFrom (render : AnimatedGifState) (now : Z) (h : Hook) : Hook :=
  if (length (frames render) =? 0) || isPlaying render then h
  else
    let h1 := cancelPending h in
    let h2 := setState (withPlaying true) h1 in
    let h3 := setFrameTimeOffset 0 (setLastTime now h2) in
    let cl := mkClosure (frames render) (currentFrameIndex render) in
    let '(id, h4) := requestAnimationFrame cl h3 in
    setAnimationRef (Some id) h4.

(** [play()] as the current render hands it out: the component has
    re-rendered since the last change of state. *)
Definition play (now : Z) (h : Hook) : Hook := playFrom (state h) now h.

Definition pause (h : Hook) : Hook :=
  setState (withPlaying false) (cancelPending h).

Definition reset (h : Hook) : Hook :=
  setState (λ prev, withPlaying false (withFrameIndex 0 prev)) (cancelPending h).

(** The browser runs the callback registered under [id], if it is still in
    its list, and drops it from the list. *)
Definition runFrameCallback (id : Handle) (timestamp : Z) (h : Hook) : Hook :=
  match list_find (λ e, e.1 = id) (rafCallbacks h) with
  | Some (_, (_, cl)) => animate cl timestamp (cancelAnimationFrame id h)
  | None => h
  end.

(** *** [generateGif] *)

(** One call [gif.addFrame(canvas, { delay, copy: true })]: the pixels of the
    canvas at that moment and the delay read from [originalDelays]
    ([None] for [undefined]). *)
Record AddFrame := mkAddFrame { image : ImageData; delayOption : option Z }.

Inductive Rejection :=
| NoFramesAvailable        (* Error('No frames available') *)
| ImportFailed             (* the dynamic import of the encoder failed *)
| NoCanvasContext          (* Error('Could not get canvas context') *)
| EffectsThrew.            (* thrown by [applyEffects] on the first frame *)

Inductive Export :=
| Rejected (why : Rejection)
| Unsettled (added : list AddFrame)   (* a later [setTimeout] callback threw *)
| Rendered (added : list AddFrame).   (* [gif.render()] reached *)

(** [processNextFrame], with [todo] the frames from index [frameCount] on. *)
Fixpoint processNextFrame (s : AnimatedGifState) (applyEffects : Effects)
    (todo : list Frame) (frameCount : nat) (canvas : Canvas)
    (added : list AddFrame) : Export :=
  match todo with
  | [] => Rendered added
  | frame :: rest =>
      match applyEffects (drawFrame canvas frame) with
      | Threw _ =>
          if frameCount =? 0 then Rejected EffectsThrew else Unsettled added
      | Returned canvas' =>
          processNextFrame s applyEffects rest (S frameCount) canvas'
            (added ++ [mkAddFrame (bitmap canvas') (originalDelays s !! frameCount)])
      end
  end.

Definition generateGif (s : AnimatedGifState) (encoderImported : bool)
    (canvas : Canvas) (applyEffects : Effects) : Export :=
  if length (frames s) =? 0 then Rejected NoFramesAvailable
  else if negb encoderImported then Rejected ImportFailed
  else
    let canvas1 := fitCanvas s canvas in
    if negb (context2d canvas1) then Rejected NoCanvasContext
    else processNextFrame s applyEffects (frames s) 0 canvas1 [].

(** ** Runs of the hook *)

(** [Play] is the [play] of the current render, [PlayFrom] one kept from
    any other render. *)
Inductive Event :=
| LoadGifBegin
| LoadGifSettle (b : Browser)
| Play (now : Z)
| Pause
| Reset
| FrameCallback (id : Handle) (timestamp : Z)
| PlayFrom (render : AnimatedGifState) (now : Z).

Definition step (e : Event) (h : Hook) : Hook :=
  match e with
  | LoadGifBegin => loadGif_begin h
  | LoadGifSettle b => (loadGif_settle b h).1
  | Play now => play now h
  | Pause => pause h
  | Reset => reset h
  | FrameCallback id timestamp => runFrameCallback id timestamp h
  | PlayFrom render now => playFrom render now h
  end.

Definition run (evs : list Event) (h : Hook) : Hook :=
  foldl (λ h e, step e h) h evs.

Definition reachable (h : Hook) : Prop := ∃ evs, h = run evs initialHook.

(** Whether an event installs a frame store: a load that settles well. *)
Definition installs (e : Event) : bool :=
  match e with
  | LoadGifSettle b =>
      match tryLoad b with
      | inr _ => true
      | inl _ => false
      end
  | _ => false
  end.

(** Ticks the browser may deliver after the hook has changed state: the
    callback still in its list under [id], or a stale run of some [animate]
    closure that had already been taken off the list. *)
Inductive Tick :=
| Queued (id : Handle) (timestamp : Z)
| Stale (cl : AnimateClosure) (timestamp : Z).

Definition deliver (t : Tick) (h : Hook) : Hook :=
  match t with
  | Queued id timestamp => runFrameCallback id timestamp h
  | Stale cl timestamp => animate cl timestamp h
  end.

Definition deliverAll (ts : list Tick) (h : Hook) : Hook :=
  foldl (λ h t, deliver t h) h ts.

(** Whether the browser still holds a callback under the handle [r]. *)
Definition stillQueued (r : option Handle) (h : Hook) : bool :=
  match r with
  | Some id => bool_decide (id ∈ (rafCallbacks h).*1)
  | None => false
  end.

(** ** The tick as the specification words it

    "carryOverMillis += elapsedMillis; while carryOverMillis >=
    frames[currentFrameIndex].delay: carryOverMillis -= that delay;
    currentFrameIndex = (currentFrameIndex + 1) mod frames.length", the loop
    unrolled at most [fuel] times. *)
Fixpoint specAdvance (fuel : nat) (delays : list Z) (i : nat) (carry : Z)
    : nat * Z :=
  match fuel with
  | 0 => (i, carry)
  | S fuel' =>
      match delays !! i with
      | Some d =>
          if (d <=? carry)%Z
          then specAdvance fuel' delays ((i + 1) mod length delays) (carry - d)%Z
          else (i, carry)
      | None => (i, carry)
      end
  end.

Definition specTick (fuel : nat) (delays : list Z) (i : nat) (carry elapsed : Z)
    : nat * Z :=
  specAdvance fuel delays i (carry + elapsed)%Z.

(** ** Invariants *)

(** Both canvases of the frame loop have the size read from the first
    patch, and the two result arrays grow together. *)
Definition loopInv (w h : nat) (v : Compose.Vars) : Prop :=
  img_width (Compose.ctx v) = w ∧ img_height (Compose.ctx v) = h
  ∧ img_width (Compose.patchCtx v) = w ∧ img_height (Compose.patchCtx v) = h
  ∧ Compose.originalDelays v = delay <$> Compose.processedFrames v
  ∧ Forall (λ f, wellSized (imageData f)
                 ∧ img_width (imageData f) = w ∧ img_height (imageData f) = h)
           (Compose.processedFrames v).

(** A frame store as a successful load installs it: one delay per frame,
    every frame a full bitmap of the store's size. *)
Definition storeInv (s : AnimatedGifState) : Prop :=
  frames s ≠ [] →
  originalDelays s = delay <$> frames s
  ∧ Forall (λ f, wellSized (imageData f)
                 ∧ img_width (imageData f) = width s
                 ∧ img_height (imageData f) = height s)
           (frames s).

(** A pixel that is either fully transparent or fully opaque, for which
    canvas storage and "source-over" are exact. *)
Definition binary (p : RGBA) : Prop := alpha p = 0%Z ∨ alpha p = 255%Z.

Definition allBinary (b : ImageData) : Prop := ∀ x y, binary (getPixel b x y).

(** Nothing the frame loop holds has a partially transparent pixel. *)
Definition crisp (v : Compose.Vars) : Prop :=
  allBinary (Compose.ctx v) ∧ allBinary (Compose.patchCtx v)
  ∧ (∀ img, Compose.previousImageData v = Some img → allBinary img)
  ∧ Forall (λ f, allBinary (imageData f)) (Compose.processedFrames v).

(** Every callback in the browser's list is the one [animationRef] names. *)
Definition queueInv (h : Hook) : Prop :=
  ∀ e, e ∈ rafCallbacks h → animationRef h = Some e.1.

(** Two states holding the same frame store. *)
Definition sameStore (s s' : AnimatedGifState) : Prop :=
  frames s' = frames s ∧ width s' = width s ∧ height s' = height s
  ∧ originalDelays s' = originalDelays s.

(** An effect that always returns. *)
Definition returning (fx : Canvas → Canvas) : Effects := λ c, Returned (fx c).

(** What the encoder should be handed for a frame left as it is. *)
Definition untouched (f : Frame) : AddFrame :=
  mkAddFrame (imageData f) (Some (delay f)).

(** ** Sample data used by the closed examples *)

Definition palette : list (Z * Z * Z) := [(255, 0, 0)%Z; (0, 0, 255)%Z].

Definition opaqueRed : RGBA := mkRGBA 255 0 0 255.
Definition opaqueBlue : RGBA := mkRGBA 0 0 255 255.
Definition opaqueBlack : RGBA := mkRGBA 0 0 0 255.

(** A patch of size [w] x [h] at [(l, t)]. *)
Definition patch (w h l t : nat) (px : list nat) (transparent : option nat)
    (disposal : nat) (d : Z) : Gifuct.ParsedFrame :=
  Gifuct.mkParsedFrame (Gifuct.mkDims w h l t) px transparent disposal palette d.

(** Three one-pixel patches with delays 100, 200 and 50 ms. *)
Definition threeFrameGif : list Gifuct.ParsedFrame :=
  [patch 1 1 0 0 [0] None 1 100; patch 1 1 0 0 [1] None 1 200;
   patch 1 1 0 0 [0] None 1 50].

Definition working (gifFrames : list Gifuct.ParsedFrame) : Browser :=
  mkBrowser (Decoded gifFrames) true true "IndexSizeError".

Definition offline : Browser :=
  mkBrowser (FetchRejected "NetworkError") true true "IndexSizeError".

(** The hook after loading [threeFrameGif] into a fresh instance. *)
Definition threeFrameHook : Hook := (loadGif (working threeFrameGif) initialHook).1.
(** The loop variables after the patches [done] on a [w] x [h] canvas. *)
Definition afterPatches (w h : nat) (done : list Gifuct.ParsedFrame)
    : Compose.Vars :=
  default (Compose.start w h)
          (processFrames w h None done (Compose.start w h)).

(** Two red pixels covering a 2 x 1 canvas. *)
Definition redPair : Gifuct.ParsedFrame := patch 2 1 0 0 [0; 0] None 0 100.

(** One blue pixel at the origin, to be disposed of with code 2. *)
Definition bluePoint : Gifuct.ParsedFrame := patch 1 1 0 0 [1] None 2 100.

(** One pixel at (1, 0) carrying the transparent index 7. *)
Definition clearPoint : Gifuct.ParsedFrame :=
  patch 1 1 1 0 [7] (Some 7) 1 100.

(** One pixel at (1, 0) whose colour index 9 has no palette entry. *)
Definition strayPoint : Gifuct.ParsedFrame :=
  patch 1 1 1 0 [9] (Some 7) 1 100.

(** One red pixel with disposal code 3, then one transparent pixel. *)
Definition redRestore : Gifuct.ParsedFrame := patch 1 1 0 0 [0] None 3 100.
Definition seeThrough : Gifuct.ParsedFrame := patch 1 1 0 0 [7] (Some 7) 1 100.

(** An effect that wipes the canvas. *)
Definition wipe (c : Canvas) : Canvas :=
  mkCanvas (clearRect (bitmap c) 0 0 (img_width (bitmap c)) (img_height (bitmap c)))
           (context2d c).

(** ** More of the animated-GIF hook *)

(** The cleanup of the mount effect: the pending callback is cancelled, the
    ref keeps its handle. *)
Definition unmount (h : Hook) : Hook :=
  match animationRef h with
  | Some id => cancelAnimationFrame id h
  | None => h
  end.

(** Runs in which no two loads overlap -- other calls and ticks may fall
    between the start of a load and its end -- and every [play] is the one
    of the current render.  [loading] tells whether a load is in flight. *)
Fixpoint orderly (loading : bool) (evs : list Event) : bool :=
  match evs with
  | [] => true
  | LoadGifBegin :: rest => negb loading && orderly true rest
  | LoadGifSettle _ :: rest => loading && orderly false rest
  | PlayFrom _ _ :: _ => false
  | _ :: rest => orderly loading rest
  end.

(** The cursor and every pending closure point into the current frames. *)
Definition cursorInv (h : Hook) : Prop :=
  (frames (state h) = [] ∨ currentFrameIndex (state h) < length (frames (state h)))
  ∧ ∀ e, e ∈ rafCallbacks h →
      closedFrames e.2 = frames (state h)
      ∧ localFrameIndex e.2 < length (frames (state h)).

(** At most one callback is pending, under the handle in [animationRef]. *)
Definition singlePending (h : Hook) : Prop :=
  rafCallbacks h = []
  ∨ ∃ id cl, rafCallbacks h = [(id, cl)] ∧ animationRef h = Some id.

(** The canvas holds the last recorded frame, and so does the snapshot. *)
Definition snapshotInv (v : Compose.Vars) : Prop :=
  wellSized (Compose.ctx v)
  ∧ (∀ img, Compose.previousImageData v = Some img → img = Compose.ctx v)
  ∧ (∀ fs f, Compose.processedFrames v = fs ++ [f] →
       imageData f = Compose.ctx v).

Definition positiveDims (f : Gifuct.ParsedFrame) : Prop :=
  0 < Gifuct.width (Gifuct.dims f) ∧ 0 < Gifuct.height (Gifuct.dims f).

(** ** The presets hook [useEffectPresets]

    [GlitchOptions] and [ShaderOptions] are opaque to the hook and are type
    parameters here, as is the constant [DEFAULT_PRESETS].  Times come in as
    the strings [new Date().toISOString()] and [Date.now()] produce. *)

#[local] Instance string_eq_decision : EqDecision string := String.string_dec.

Module Presets.

Record EffectPreset (G S : Type) := mkPreset {
  id : string;
  name : string;
  description : string;
  glitchOptions : G;
  shaderOptions : option S;
  createdAt : string;
  updatedAt : string;
  isFavorite : bool;
  tags : list string
}.

Arguments mkPreset {G S}.
Arguments id {G S}.
Arguments name {G S}.
Arguments description {G S}.
Arguments glitchOptions {G S}.
Arguments shaderOptions {G S}.
Arguments createdAt {G S}.
Arguments updatedAt {G S}.
Arguments isFavorite {G S}.
Arguments tags {G S}.

Record PresetState (G S : Type) := mkPresetState {
  presets : list (EffectPreset G S);
  currentPreset : option (EffectPreset G S)
}.

Arguments mkPresetState {G S}.
Arguments presets {G S}.
Arguments currentPreset {G S}.

(** [Partial<Omit<EffectPreset, 'id' | 'createdAt' | 'updatedAt'>>]: a key
    is either absent or carries its new value. *)
Record Updates (G S : Type) := mkUpdates {
  setName : option string;
  setDescription : option string;
  setGlitchOptions : option G;
  setShaderOptions : option (option S);
  setIsFavorite : option bool;
  setTags : option (list string)
}.

Arguments mkUpdates {G S}.
Arguments setName {G S}.
Arguments setDescription {G S}.
Arguments setGlitchOptions {G S}.
Arguments setShaderOptions {G S}.
Arguments setIsFavorite {G S}.
Arguments setTags {G S}.

Definition initialPresetState {G S} : PresetState G S := mkPresetState [] None.

(** [presets.find(p => p.id === presetId) || null] *)
Definition find {G S} (presetId : string) (ps : list (EffectPreset G S))
    : option (EffectPreset G S) :=
  snd <$> list_find (λ p, id p = presetId) ps.

(** [currentPreset?.id === presetId] *)
Definition isCurrent {G S} (presetId : string)
    (current : option (EffectPreset G S)) : bool :=
  match current with
  | Some p => bool_decide (id p = presetId)
  | None => false
  end.

(** [applyPreset] is a [useCallback] closure over [state.presets] of the
    render that created it: it searches that list, [renderPresets], and
    sets the current preset by a functional update. *)
Definition applyPresetFrom {G S} (renderPresets : list (EffectPreset G S))
    (presetId : string) (st : PresetState G S)
    : PresetState G S * option (EffectPreset G S) :=
  let preset := find presetId renderPresets in
  (mkPresetState (presets st) preset, preset).

(** [applyPreset] as the current render hands it out. *)
Definition applyPreset {G S} (presetId : string) (st : PresetState G S)
    : PresetState G S * option (EffectPreset G S) :=
  applyPresetFrom (presets st) presetId st.

Definition saveAsPreset {G S} (name description : string) (glitchOptions : G)
    (shaderOptions : option S) (tags : list string)
    (nowIso nowMillis : string) (st : PresetState G S)
    : PresetState G S * EffectPreset G S :=
  let newPreset :=
    mkPreset (String.append "preset-" nowMillis) name description glitchOptions
             shaderOptions nowIso nowIso false tags in
  (mkPresetState (presets st ++ [newPreset]) (Some newPreset), newPreset).

(** [{ ...preset, ...updates, updatedAt: now }] *)
Definition updated {G S} (u : Updates G S) (nowIso : string)
    (p : EffectPreset G S) : EffectPreset G S :=
  mkPreset (id p)
           (default (name p) (setName u))
           (default (description p) (setDescription u))
           (default (glitchOptions p) (setGlitchOptions u))
           (default (shaderOptions p) (setShaderOptions u))
           (createdAt p)
           nowIso
           (default (isFavorite p) (setIsFavorite u))
           (default (tags p) (setTags u)).

Definition updatePreset {G S} (presetId : string) (u : Updates G S)
    (nowIso : string) (st : PresetState G S) : PresetState G S :=
  mkPresetState
    ((λ p, if bool_decide (id p = presetId) then updated u nowIso p else p)
       <$> presets st)
    (if isCurrent presetId (currentPreset st)
     then updated u nowIso <$> currentPreset st
     else currentPreset st).

Definition deletePreset {G S} (presetId : string) (st : PresetState G S)
    : PresetState G S :=
  mkPresetState
    (filter (λ p, id p ≠ presetId) (presets st))
    (if isCurrent presetId (currentPreset st) then None else currentPreset st).

Definition flipped {G S} (p : EffectPreset G S) : EffectPreset G S :=
  mkPreset (id p) (name p) (description p) (glitchOptions p) (shaderOptions p)
           (createdAt p) (updatedAt p) (negb (isFavorite p)) (tags p).

Definition toggleFavorite {G S} (presetId : string) (st : PresetState G S)
    : PresetState G S :=
  mkPresetState
    ((λ p, if bool_decide (id p = presetId) then flipped p else p)
       <$> presets st)
    (if isCurrent presetId (currentPreset st)
     then flipped <$> currentPreset st
     else currentPreset st).

Definition resetToDefaults {G S} (DEFAULT_PRESETS : list (EffectPreset G S))
    (st : PresetState G S) : PresetState G S :=
  mkPresetState DEFAULT_PRESETS None.

(** *** Persistence

    [localStorage] as the two keys the hook uses.  The text under
    'glitchMixer.presets' is kept as what [JSON.parse] makes of it. *)
Inductive StoredPresets (G S : Type) :=
| Absent                                   (* no key, or the empty string *)
| Corrupt                                  (* reading or parsing throws *)
| Stored (ps : list (EffectPreset G S)).

Arguments Absent {G S}.
Arguments Corrupt {G S}.
Arguments Stored {G S}.

Record Storage (G S : Type) := mkStorage {
  storedPresets : StoredPresets G S;
  storedCurrent : option string
}.

Arguments mkStorage {G S}.
Arguments storedPresets {G S}.
Arguments storedCurrent {G S}.

(** The first effect: load on mount. *)
Definition loadEffect {G S} (DEFAULT_PRESETS : list (EffectPreset G S))
    (ls : Storage G S) (st : PresetState G S) : PresetState G S :=
  match storedPresets ls with
  | Corrupt => mkPresetState DEFAULT_PRESETS (currentPreset st)
  | Absent =>
      let st1 := mkPresetState DEFAULT_PRESETS (currentPreset st) in
      match storedCurrent ls with
      | Some lastUsedPresetId =>
          if bool_decide (lastUsedPresetId = ""%string) then st1
          else mkPresetState (presets st1) (find lastUsedPresetId [])
      | None => st1
      end
  | Stored parsedPresets =>
      let st1 := mkPresetState parsedPresets (currentPreset st) in
      match storedCurrent ls with
      | Some lastUsedPresetId =>
          if bool_decide (lastUsedPresetId = ""%string) then st1
          else mkPresetState (presets st1) (find lastUsedPresetId parsedPresets)
      | None => st1
      end
  end.

(** The second effect: save after every change; a write that throws (a full
    or disabled store) ends the effect. *)
Definition saveEffect {G S} (writable : bool) (st : PresetState G S)
    (ls : Storage G S) : Storage G S :=
  if writable
  then mkStorage (Stored (presets st)) (id <$> currentPreset st)
  else ls.

(** The calls a component can make on the hook once it is mounted;
    [ApplyPreset] is the [applyPreset] of the current render,
    [ApplyPresetFrom] one kept from a render that saw another list. *)
Inductive Action (G S : Type) :=
| ApplyPreset (presetId : string)
| SaveAsPreset (name description : string) (glitchOptions : G)
    (shaderOptions : option S) (tags : list string) (nowIso nowMillis : string)
| UpdatePreset (presetId : string) (u : Updates G S) (nowIso : string)
| DeletePreset (presetId : string)
| ToggleFavorite (presetId : string)
| ResetToDefaults
| ApplyPresetFrom (renderPresets : list (EffectPreset G S)) (presetId : string).

Arguments ApplyPreset {G S}.
Arguments SaveAsPreset {G S}.
Arguments UpdatePreset {G S}.
Arguments DeletePreset {G S}.
Arguments ToggleFavorite {G S}.
Arguments ResetToDefaults {G S}.
Arguments ApplyPresetFrom {G S}.

Definition act {G S} (DEFAULT_PRESETS : list (EffectPreset G S))
    (a : Action G S) (st : PresetState G S) : PresetState G S :=
  match a with
  | ApplyPreset presetId => (applyPreset presetId st).1
  | SaveAsPreset n d g s t nowIso nowMillis =>
      (saveAsPreset n d g s t nowIso nowMillis st).1
  | UpdatePreset presetId u nowIso => updatePreset presetId u nowIso st
  | DeletePreset presetId => deletePreset presetId st
  | ToggleFavorite presetId => toggleFavorite presetId st
  | ResetToDefaults => resetToDefaults DEFAULT_PRESETS st
  | ApplyPresetFrom renderPresets presetId =>
      (applyPresetFrom renderPresets presetId st).1
  end.

Definition actAll {G S} (DEFAULT_PRESETS : list (EffectPreset G S))
    (acts : list (Action G S)) (st : PresetState G S) : PresetState G S :=
  foldl (λ st a, act DEFAULT_PRESETS a st) st acts.

(** *** [importPresets]

    An entry of the parsed JSON array: typed as a preset by a cast only, so
    its id and name may be empty and its glitch options missing. *)
Record RawPreset (G S : Type) := mkRaw {
  rawId : string;
  rawName : string;
  rawDescription : string;
  rawGlitchOptions : option G;
  rawShaderOptions : option S;
  rawCreatedAt : string;
  rawUpdatedAt : string;
  rawIsFavorite : bool;
  rawTags : list string
}.

Arguments mkRaw {G S}.
Arguments rawId {G S}.
Arguments rawName {G S}.
Arguments rawDescription {G S}.
Arguments rawGlitchOptions {G S}.
Arguments rawShaderOptions {G S}.
Arguments rawCreatedAt {G S}.
Arguments rawUpdatedAt {G S}.
Arguments rawIsFavorite {G S}.
Arguments rawTags {G S}.

(** [JSON.parse(jsonData)] on a file that holds an array of objects, or
    does not parse; [Json] below covers every file. *)
Inductive Parsed (G S : Type) :=
| Unparsable
| ParsedList (importedPresets : list (RawPreset G S)).

Arguments Unparsable {G S}.
Arguments ParsedList {G S}.

(** The filter [preset.id && preset.name && preset.glitchOptions], keeping
    the glitch options it found. *)
Definition validated {G S} (r : RawPreset G S) : option (RawPreset G S * G) :=
  if bool_decide (rawId r = ""%string) then None
  else if bool_decide (rawName r = ""%string) then None
  else match rawGlitchOptions r with
       | Some g => Some (r, g)
       | None => None
       end.

(** [{ ...preset, id: `imported-${Date.now()}-${random}` }] for the [k]-th
    valid entry; [stamp k] is the text after "imported-". *)
Definition withNewId {G S} (stamp : nat → string) (k : nat)
    (rg : RawPreset G S * G) : EffectPreset G S :=
  mkPreset (String.append "imported-" (stamp k)) (rawName rg.1)
           (rawDescription rg.1) rg.2 (rawShaderOptions rg.1)
           (rawCreatedAt rg.1) (rawUpdatedAt rg.1) (rawIsFavorite rg.1)
           (rawTags rg.1).

Definition importPresets {G S} (parsed : Parsed G S) (replace : bool)
    (stamp : nat → string) (st : PresetState G S) : PresetState G S * bool :=
  match parsed with
  | Unparsable => (st, false)
  | ParsedList importedPresets =>
      let validPresets := omap validated importedPresets in
      let presetsWithNewIds := imap (withNewId stamp) validPresets in
      (mkPresetState
         (if replace then presetsWithNewIds
          else presets st ++ presetsWithNewIds)
         (currentPreset st),
       true)
  end.

(** What [JSON.parse] can make of a file chosen by the user: it throws; or
    it yields something that is not an array (an object, null, a number, a
    string, a boolean); or an array, whose entries are null, or not objects
    (reading [id] from them gives undefined), or objects.  The fields of an
    object entry are taken at the types the interface gives them; a missing
    id or name is the empty string. *)
Inductive Entry (G S : Type) :=
| NullEntry
| NonObject
| Object (r : RawPreset G S).

Arguments NullEntry {G S}.
Arguments NonObject {G S}.
Arguments Object {G S}.

Inductive Json (G S : Type) :=
| SyntaxError
| NotAnArray
| ArrayOf (entries : list (Entry G S)).

Arguments SyntaxError {G S}.
Arguments NotAnArray {G S}.
Arguments ArrayOf {G S}.

(** How a call of [importPresets] ends: it returns [false]; or it returns
    [true] and its state update gives a new state; or it returns [true] and
    the state update, run outside the [try], throws. *)
Inductive ImportResult (G S : Type) :=
| ReturnedFalse
| Imported (st : PresetState G S)
| UpdaterThrew.

Arguments ReturnedFalse {G S}.
Arguments Imported {G S}.
Arguments UpdaterThrew {G S}.

Definition isNull {G S} (e : Entry G S) : bool :=
  match e with
  | NullEntry => true
  | _ => false
  end.

Definition asObject {G S} (e : Entry G S) : option (RawPreset G S) :=
  match e with
  | Object r => Some r
  | _ => None
  end.

(** [importPresets] on any file.  Calling [filter] on what is not an array
    throws, and so does reading [id] from a null entry; an entry that is
    not an object fails the filter like an object without an id. *)
Definition importFile {G S} (json : Json G S) (replace : bool)
    (stamp : nat → string) (st : PresetState G S) : ImportResult G S :=
  match json with
  | SyntaxError => ReturnedFalse
  | NotAnArray => UpdaterThrew
  | ArrayOf entries =>
      if existsb isNull entries then UpdaterThrew
      else
        Imported
          (importPresets (ParsedList (omap asObject entries)) replace stamp st).1
  end.

(** No [applyPreset] kept from another render among the calls. *)
Definition currentRender {G S} (a : Action G S) : bool :=
  match a with
  | ApplyPresetFrom _ _ => false
  | _ => true
  end.

(** The current preset, when there is one, is one of the presets. *)
Definition listed {G S} (st : PresetState G S) : Prop :=
  ∀ p, currentPreset st = Some p → p ∈ presets st.

(** The current preset, when there is one, has a non-empty id and is the
    first preset under that id. *)
Definition restorable {G S} (st : PresetState G S) : Prop :=
  match currentPreset st with
  | Some p => id p ≠ ""%string ∧ find (id p) (presets st) = Some p
  | None => True
  end.

(** Two presets for the closed examples, with numbers standing in for the
    glitch options. *)
Definition rgbSplit : EffectPreset nat unit :=
  mkPreset "preset-1" "RGB Split" "Classic RGB channel shift effect" 1 None
           "2024-01-01T00:00:00.000Z" "2024-01-01T00:00:00.000Z" false
           ["classic"; "channel shift"]%string.

Definition waves : EffectPreset nat unit :=
  mkPreset "preset-2" "Waves" "Animated wave distortion" 2 (Some tt)
           "2024-01-01T00:00:00.000Z" "2024-01-02T00:00:00.000Z" true
           ["wave"; "animated"]%string.

End Presets.

(** *** Pixel-level facts about the canvas operations *)

Lemma inside_true w h x y : inside w h x y = true ↔ x < w ∧ y < h.
Proof.
  unfold inside. rewrite andb_true_iff, !Nat.ltb_lt. tauto.
Qed.

Lemma inRect_true x0 y0 w h x y :
  inRect x0 y0 w h x y = true ↔ (x0 ≤ x < x0 + w) ∧ (y0 ≤ y < y0 + h).
Proof.
  unfold inRect. rewrite !andb_true_iff, !Nat.ltb_lt, !Nat.leb_le. tauto.
Qed.

Lemma row_major_mod w x y : x < w → (y * w + x) mod w = x.
Proof.
  intros Hx. rewrite Nat.add_comm, Nat.Div0.mod_add.
  apply Nat.mod_small, Hx.
Qed.

Lemma row_major_div w x y : x < w → (y * w + x) / w = y.
Proof.
  intros Hx. rewrite Nat.add_comm, Nat.div_add by lia.
  rewrite Nat.div_small by exact Hx. reflexivity.
Qed.

Lemma row_major_bound w h x y : x < w → y < h → y * w + x < w * h.
Proof. intros Hx Hy. nia. Qed.

Lemma getPixel_tabulate w h f x y :
  x < w → y < h → getPixel (tabulate w h f) x y = f x y.
Proof.
  intros Hx Hy. unfold getPixel, tabulate. simpl.
  assert (Hin : inside w h x y = true) by (apply inside_true; lia).
  rewrite Hin, list_lookup_fmap.
  rewrite lookup_seq_lt by (apply row_major_bound; assumption).
  simpl. rewrite row_major_mod, row_major_div by assumption. reflexivity.
Qed.

Lemma getPixel_outside b x y :
  ¬ (x < img_width b ∧ y < img_height b) → getPixel b x y = transparentBlack.
Proof.
  intros Hout. unfold getPixel.
  destruct (inside (img_width b) (img_height b) x y) eqn:E; [|reflexivity].
  apply inside_true in E. contradiction.
Qed.

Lemma wellSized_tabulate w h f : wellSized (tabulate w h f).
Proof.
  unfold wellSized, tabulate. simpl. rewrite length_fmap, length_seq.
  reflexivity.
Qed.

(** Copying a well-sized bitmap at its own size gives the bitmap back. *)
Lemma tabulate_getPixel b :
  wellSized b → tabulate (img_width b) (img_height b) (getPixel b) = b.
Proof.
  destruct b as [w h d]. unfold wellSized, tabulate. simpl. intros Hlen.
  f_equal. apply list_eq. intros k.
  rewrite list_lookup_fmap.
  destruct (decide (k < w * h)) as [Hk|Hk].
  - rewrite lookup_seq_lt by exact Hk. simpl.
    assert (Hw : 0 < w) by nia.
    assert (Hm : k mod w < w) by (apply Nat.mod_upper_bound; lia).
    assert (Hd : k / w < h).
    { apply Nat.Div0.div_lt_upper_bound. lia. }
    unfold getPixel. simpl.
    assert (Hin : inside w h (k mod w) (k / w) = true)
      by (apply inside_true; lia).
    rewrite Hin.
    assert (Hk' : k / w * w + k mod w = k).
    { pose proof (Nat.div_mod_eq k w). lia. }
    rewrite Hk'.
    destruct (d !! k) eqn:E; [reflexivity|].
    apply lookup_ge_None in E. lia.
  - rewrite lookup_seq_ge by lia. simpl. symmetry.
    apply lookup_ge_None. lia.
Qed.


(** ** Playback *)

Lemma cancelPending_ref h : animationRef (cancelPending h) = None.
Proof.
  unfold cancelPending. destruct (animationRef h) eqn:E; simpl; [reflexivity|exact E].
Qed.

Lemma cancelPending_state h : state (cancelPending h) = state h.
Proof. unfold cancelPending. destruct (animationRef h); reflexivity. Qed.

Lemma cancelPending_offset h :
  frameTimeOffsetRef (cancelPending h) = frameTimeOffsetRef h.
Proof. unfold cancelPending. destruct (animationRef h); reflexivity. Qed.

Lemma cancelAnimationFrame_gone id cl h :
  (id, cl) ∉ rafCallbacks (cancelAnimationFrame id h).
Proof.
  unfold cancelAnimationFrame. simpl. intros Hin.
  apply list_elem_of_filter in Hin. destruct Hin as [Hne _]. simpl in Hne.
  congruence.
Qed.

Lemma cancelPending_gone id cl h :
  animationRef h = Some id → (id, cl) ∉ rafCallbacks (cancelPending h).
Proof.
  intros E. unfold cancelPending. rewrite E. simpl.
  apply (cancelAnimationFrame_gone id cl h).
Qed.

(** With no handle in [animationRef], [animate] returns at its first line. *)
Lemma animate_guard cl timestamp h :
  animationRef h = None → animate cl timestamp h = h.
Proof. intros E. unfold animate. rewrite E. reflexivity. Qed.

Lemma deliver_stopped t h :
  animationRef h = None →
  animationRef (deliver t h) = None ∧ state (deliver t h) = state h.
Proof.
  intros E. destruct t as [id ts|cl ts]; simpl.
  - unfold runFrameCallback.
    destruct (list_find _ _) as [[i [i' cl]]|]; [|auto].
    rewrite animate_guard by exact E. auto.
  - rewrite animate_guard by exact E. auto.
Qed.

Lemma deliverAll_stopped ts : ∀ h,
  animationRef h = None →
  animationRef (deliverAll ts h) = None ∧ state (deliverAll ts h) = state h.
Proof.
  induction ts as [|t ts IH]; intros h E; [auto|].
  change (deliverAll (t :: ts) h) with (deliverAll ts (deliver t h)).
  destruct (deliver_stopped t h E) as [E1 E2].
  destruct (IH (deliver t h) E1) as [E3 E4].
  split; [exact E3|]. rewrite E4. exact E2.
Qed.

(** C1, as the code has it: one run of [animate] adds the elapsed time to the
    carry-over and then advances at most once -- a single conditional, not a
    loop: when the carry-over has reached the current frame's delay, that
    delay is subtracted once and the cursor moves one frame on, modulo the
    number of frames; otherwise the cursor stays.  The callback re-registers
    itself with the cursor it ended on. *)
Theorem animate_advances_at_most_once
    (cl : AnimateClosure) (timestamp : Z) (h : Hook) (id : Handle)
    (currentFrame : Frame) :
  animationRef h = Some id →
  closedFrames cl !! localFrameIndex cl = Some currentFrame →
  let carry := (frameTimeOffsetRef h + (timestamp - lastTimeRef h))%Z in
  let due := (delay currentFrame <=? carry)%Z in
  let next :=
    if due then (localFrameIndex cl + 1) mod length (closedFrames cl)
    else localFrameIndex cl in
  let h' := animate cl timestamp h in
  frameTimeOffsetRef h' = (if due then carry - delay currentFrame else carry)%Z
  ∧ currentFrameIndex (state h')
    = (if due then next else currentFrameIndex (state h))
  ∧ rafCallbacks h'
    = rafCallbacks h ++ [(rafNextHandle h, mkClosure (closedFrames cl) next)]
  ∧ animationRef h' = Some (rafNextHandle h)
  ∧ lastTimeRef h' = timestamp.
Proof.
  intros Href Hcur carry due next h'. subst h'. unfold animate.
  rewrite Href, Hcur. simpl. fold carry. fold due.
  subst next. destruct due; simpl; [|destruct cl; simpl; auto].
  auto.
Qed.

(** The fast-forward example of C1 on the code: delays 100, 200, 50, cursor
    on frame 0, one tick 275 ms after [play]. *)
Lemma animate_advances_at_most_once_witness :
  let h := play 0 threeFrameHook in
  let cl := mkClosure (frames (state threeFrameHook)) 0 in
  let h' := animate cl 275 h in
  (animationRef h = Some 1%positive
   ∧ closedFrames cl !! localFrameIndex cl = Some (mkFrame (tabulate 1 1 (λ _ _, opaqueRed)) 100))
  ∧ frameTimeOffsetRef h' = 175%Z
  ∧ currentFrameIndex (state h') = 1
  ∧ rafCallbacks h'
    = rafCallbacks h ++ [(rafNextHandle h, mkClosure (closedFrames cl) 1)]
  ∧ animationRef h' = Some (rafNextHandle h)
  ∧ lastTimeRef h' = 275%Z.
Proof.
  intros h cl h'.
  assert (Href : animationRef h = Some 1%positive) by reflexivity.
  assert (Hcur : closedFrames cl !! localFrameIndex cl
                 = Some (mkFrame (tabulate 1 1 (λ _ _, opaqueRed)) 100))
    by reflexivity.
  split; [split; [exact Href|exact Hcur]|].
  exact (animate_advances_at_most_once cl 275 h 1%positive _ Href Hcur).
Defined.

(** C1 fails as stated, twice over.  On the claim's own example (275 ms)
    the tick ends on frame 1 with 175 ms carried over, not on frame 2 with
    25 ms.  And the tick is not the loop of the specification: after 325 ms
    the loop would end on frame 2 with 25 ms, the code on frame 1 with
    225 ms. *)
Lemma animate_is_not_a_loop :
  let cursor h := (currentFrameIndex (state h), frameTimeOffsetRef h) in
  let h275 := runFrameCallback 1%positive 275 (play 0 threeFrameHook) in
  let h325 := runFrameCallback 1%positive 325 (play 0 threeFrameHook) in
  map delay (frames (state threeFrameHook)) = [100; 200; 50]%Z
  ∧ cursor (play 0 threeFrameHook) = (0, 0%Z)
  ∧ cursor h275 = (1, 175%Z)
  ∧ cursor h275 ≠ (2, 25%Z)
  ∧ cursor h325 = (1, 225%Z)
  ∧ specTick 3 [100; 200; 50]%Z 0 0 325 = (2, 25%Z)
  ∧ cursor h325 ≠ specTick 3 [100; 200; 50]%Z 0 0 325.
Proof.
  intros cursor h275 h325.
  assert (E1 : cursor h275 = (1, 175%Z)) by (vm_compute; reflexivity).
  assert (E2 : cursor h325 = (1, 225%Z)) by (vm_compute; reflexivity).
  assert (E3 : specTick 3 [100; 200; 50]%Z 0 0 325 = (2, 25%Z))
    by (vm_compute; reflexivity).
  split; [vm_compute; reflexivity|].
  split; [vm_compute; reflexivity|].
  split; [exact E1|].
  split; [rewrite E1; intros H; discriminate H|].
  split; [exact E2|].
  split; [exact E3|].
  rewrite E2, E3. intros H. discriminate H.
Qed.

Lemma cancelPending_not_queued h :
  stillQueued (animationRef h) (cancelPending h) = false.
Proof.
  unfold stillQueued. destruct (animationRef h) as [id|] eqn:E; [|reflexivity].
  apply bool_decide_eq_false. intros Hin.
  apply list_elem_of_fmap in Hin. destruct Hin as [[i cl] [Hi Hin]].
  simpl in Hi. subst i. exact (cancelPending_gone id cl h E Hin).
Qed.

(** C9: once [pause] has run, no tick moves the cursor or restarts playback,
    whether the browser delivers a callback still in its list or a stale run
    of any [animate] closure: [pause] takes the pending callback off the
    browser's list and clears [animationRef] before it changes the state, and
    [animate] returns at its guard while [animationRef] is empty. *)
Theorem pause_freezes_cursor (h : Hook) (ts : list Tick) :
  stillQueued (animationRef h) (pause h) = false
  ∧ animationRef (pause h) = None
  ∧ currentFrameIndex (state (pause h)) = currentFrameIndex (state h)
  ∧ state (deliverAll ts (pause h)) = state (pause h)
  ∧ currentFrameIndex (state (deliverAll ts (pause h)))
    = currentFrameIndex (state h)
  ∧ isPlaying (state (deliverAll ts (pause h))) = false
  ∧ animationRef (deliverAll ts (pause h)) = None.
Proof.
  assert (Href : animationRef (pause h) = None)
    by (unfold pause; simpl; apply cancelPending_ref).
  destruct (deliverAll_stopped ts (pause h) Href) as [E1 E2].
  assert (Hst : state (pause h) = withPlaying false (state h))
    by (unfold pause; simpl; rewrite cancelPending_state; reflexivity).
  split.
  { unfold pause, stillQueued. simpl. apply cancelPending_not_queued. }
  split; [exact Href|].
  split; [rewrite Hst; reflexivity|].
  split; [exact E2|].
  rewrite E2, Hst. simpl. auto.
Qed.

(** C5, as the code has it: whatever the state before, [reset] leaves the
    cursor on frame 0 with playback stopped, takes the pending tick off the
    browser's list and clears [animationRef]; the carried-over time is not
    touched by [reset] -- it is zeroed by the next [play]. *)
Theorem reset_keeps_carry_over (h : Hook) (now : Z) :
  currentFrameIndex (state (reset h)) = 0
  ∧ isPlaying (state (reset h)) = false
  ∧ animationRef (reset h) = None
  ∧ stillQueued (animationRef h) (reset h) = false
  ∧ frameTimeOffsetRef (reset h) = frameTimeOffsetRef h
  ∧ frameTimeOffsetRef (play now (reset h))
    = (if length (frames (state h)) =? 0 then frameTimeOffsetRef h else 0%Z).
Proof.
  assert (Hst : state (reset h) = withPlaying false (withFrameIndex 0 (state h)))
    by (unfold reset; simpl; rewrite cancelPending_state; reflexivity).
  assert (Hoff : frameTimeOffsetRef (reset h) = frameTimeOffsetRef h)
    by (unfold reset; simpl; apply cancelPending_offset).
  split; [rewrite Hst; reflexivity|].
  split; [rewrite Hst; reflexivity|].
  split; [unfold reset; simpl; apply cancelPending_ref|].
  split; [unfold reset, stillQueued; simpl; apply cancelPending_not_queued|].
  split; [exact Hoff|].
  unfold play, playFrom. rewrite Hst. simpl.
  destruct (length (frames (state h)) =? 0); simpl; [exact Hoff|reflexivity].
Qed.

(** C5 fails as stated: half way through the first frame (50 ms of its
    100 ms), [reset] leaves 50 ms in the accumulator. *)
Lemma reset_does_not_zero_carry_over :
  let h := run [Play 0; FrameCallback 1%positive 50] threeFrameHook in
  frameTimeOffsetRef h = 50%Z
  ∧ frameTimeOffsetRef (reset h) = 50%Z
  ∧ ¬ (currentFrameIndex (state (reset h)) = 0
       ∧ isPlaying (state (reset h)) = false
       ∧ frameTimeOffsetRef (reset h) = 0%Z).
Proof.
  intros h.
  assert (E : frameTimeOffsetRef (reset h) = 50%Z) by (vm_compute; reflexivity).
  split; [vm_compute; reflexivity|].
  split; [exact E|].
  rewrite E. intros (_ & _ & H). discriminate H.
Qed.

(** *** At most one callback is ever pending *)

Lemma filter_none {A} (P : A → Prop) `{∀ x, Decision (P x)} (l : list A) :
  (∀ e, e ∈ l → ¬ P e) → filter P l = [].
Proof.
  intros Hnone. destruct (filter P l) as [|e l'] eqn:E; [reflexivity|].
  assert (He : e ∈ filter P l) by (rewrite E; left).
  apply list_elem_of_filter in He. destruct He as [HP He].
  destruct (Hnone e He HP).
Qed.

Lemma cancelPending_queue h : queueInv h → rafCallbacks (cancelPending h) = [].
Proof.
  intros Hinv. unfold cancelPending.
  destruct (animationRef h) as [id|] eqn:E; simpl.
  - apply filter_none. intros e He. specialize (Hinv e He).
    rewrite E in Hinv. injection Hinv as ->. intros Hne. apply Hne. reflexivity.
  - destruct (rafCallbacks h) as [|e l] eqn:El; [reflexivity|].
    specialize (Hinv e). rewrite El in Hinv.
    assert (He : e ∈ e :: l) by left.
    apply Hinv in He. rewrite E in He. discriminate He.
Qed.

Lemma queueInv_empty h : rafCallbacks h = [] → queueInv h.
Proof. intros E e He. rewrite E in He. inversion He. Qed.

Lemma animate_queueInv cl timestamp h :
  rafCallbacks h = [] → queueInv (animate cl timestamp h).
Proof.
  intros E. unfold animate.
  destruct (animationRef h); [|apply queueInv_empty, E].
  destruct (closedFrames cl !! localFrameIndex cl) as [currentFrame|];
    [|apply queueInv_empty, E].
  simpl. destruct (delay currentFrame <=? _)%Z; intros e He; simpl in *;
    rewrite E in He; simpl in He; apply list_elem_of_singleton in He;
    subst e; reflexivity.
Qed.

Lemma playFrom_queueInv render now h :
  queueInv h → queueInv (playFrom render now h).
Proof.
  intros Hinv. unfold playFrom.
  destruct ((length (frames render) =? 0) || isPlaying render); [exact Hinv|].
  intros e He. simpl in *. rewrite (cancelPending_queue h Hinv) in He.
  simpl in He. apply list_elem_of_singleton in He. subst e. reflexivity.
Qed.

Lemma step_queueInv e h : queueInv h → queueInv (step e h).
Proof.
  intros Hinv. destruct e as [|b|now| | |id timestamp|render now]; simpl;
    try (apply playFrom_queueInv, Hinv).
  - apply queueInv_empty. unfold loadGif_begin. simpl.
    apply cancelPending_queue, Hinv.
  - unfold loadGif_settle.
    destruct (tryLoad b) as [m|[[w hgt] v]]; simpl; exact Hinv.
  - apply queueInv_empty. unfold pause. simpl. apply cancelPending_queue, Hinv.
  - apply queueInv_empty. unfold reset. simpl. apply cancelPending_queue, Hinv.
  - unfold runFrameCallback.
    destruct (list_find _ _) as [[i [i' cl]]|] eqn:Ef; [|exact Hinv].
    apply list_find_Some in Ef. destruct Ef as (Hi & Hid & _). simpl in Hid.
    subst i'.
    apply animate_queueInv. unfold cancelAnimationFrame. simpl.
    apply filter_none. intros e He Hne. apply Hne.
    pose proof (Hinv e He) as H1.
    pose proof (Hinv (id, cl) (list_elem_of_lookup_2 _ _ _ Hi)) as H2.
    simpl in H2. congruence.
Qed.

Lemma reachable_queueInv h : reachable h → queueInv h.
Proof.
  intros [evs ->]. revert evs.
  assert (H : ∀ evs h0, queueInv h0 → queueInv (run evs h0)).
  { induction evs as [|e evs IH]; intros h0 H0; [exact H0|].
    change (run (e :: evs) h0) with (run evs (step e h0)).
    apply IH, step_queueInv, H0. }
  intros evs. apply H. apply queueInv_empty. reflexivity.
Qed.

(** Along every run of the hook, [pause] leaves the browser's list empty. *)
Lemma pause_empties_queue h : reachable h → rafCallbacks (pause h) = [].
Proof.
  intros Hreach. unfold pause. simpl.
  apply cancelPending_queue, reachable_queueInv, Hreach.
Qed.

(** ** Rendering *)

(** C8: with no frames, or with the cursor at or past the number of frames,
    [renderToCanvas] returns [false] and hands the canvas back exactly as it
    received it -- size and pixels; the function is total, so nothing is
    thrown. *)
Theorem renderToCanvas_out_of_range
    (s : AnimatedGifState) (canvas : Canvas) (applyEffects : option Effects) :
  frames s = [] ∨ length (frames s) ≤ currentFrameIndex s →
  renderToCanvas s canvas applyEffects = (false, canvas).
Proof.
  intros Hout. unfold renderToCanvas.
  assert (E : (length (frames s) =? 0)
              || (length (frames s) <=? currentFrameIndex s) = true).
  { apply orb_true_iff. destruct Hout as [Hnil|Hle].
    - left. rewrite Hnil. reflexivity.
    - right. apply Nat.leb_le, Hle. }
  rewrite E. reflexivity.
Qed.

(** The example of C8: frame index 999 on the three-frame store, rendering
    into a 7 x 5 canvas. *)
Lemma renderToCanvas_out_of_range_witness :
  let s := withFrameIndex 999 (state threeFrameHook) in
  let canvas := mkCanvas (blank 7 5) true in
  (frames s = [] ∨ length (frames s) ≤ currentFrameIndex s)
  ∧ renderToCanvas s canvas None = (false, canvas).
Proof.
  intros s canvas.
  assert (Hout : frames s = [] ∨ length (frames s) ≤ currentFrameIndex s).
  { right. vm_compute. lia. }
  split; [exact Hout|].
  exact (renderToCanvas_out_of_range s canvas None Hout).
Defined.

(** ** The compositor *)

Lemma fillPatch_length frame px : ∀ j data,
  length (fillPatch frame px j data) = length data.
Proof.
  induction px as [|c px IH]; intros j data; simpl; [reflexivity|].
  rewrite IH. apply length_alter.
Qed.

(** The loop only writes at indices from its start index on. *)
Lemma fillPatch_lookup_before frame px : ∀ j data k,
  k < j → fillPatch frame px j data !! k = data !! k.
Proof.
  induction px as [|c px IH]; intros j data k Hk; simpl; [reflexivity|].
  rewrite IH by lia. apply list_lookup_alter_ne. lia.
Qed.

(** Each index is written once, with the expansion of its own colour
    index. *)
Lemma fillPatch_lookup frame px : ∀ j data i c,
  px !! i = Some c →
  fillPatch frame px j data !! (j + i) = expandPixel frame c <$> data !! (j + i).
Proof.
  induction px as [|c0 px IH]; intros j data i c Hi; [discriminate Hi|].
  destruct i as [|i]; simpl in *.
  - injection Hi as ->. rewrite Nat.add_0_r.
    rewrite fillPatch_lookup_before by lia. apply list_lookup_alter_eq.
  - replace (j + S i) with (S j + i) by lia.
    rewrite (IH (S j) _ i c Hi).
    rewrite list_lookup_alter_ne by lia. reflexivity.
Qed.

Lemma patchData_length frame :
  length (patchData frame)
  = Gifuct.width (Gifuct.dims frame) * Gifuct.height (Gifuct.dims frame).
Proof.
  unfold patchData. rewrite fillPatch_length. apply length_replicate.
Qed.

Lemma patchData_lookup frame j c :
  Gifuct.pixels frame !! j = Some c →
  j < Gifuct.width (Gifuct.dims frame) * Gifuct.height (Gifuct.dims frame) →
  patchData frame !! j = Some (expandPixel frame c transparentBlack).
Proof.
  intros Hpx Hj. unfold patchData.
  rewrite (fillPatch_lookup frame _ 0 _ j c Hpx). simpl.
  rewrite lookup_replicate_2 by exact Hj. reflexivity.
Qed.

(** [new ImageData] fails on an empty patch only, whatever the pixels and
    the colour table hold. *)
Lemma newImageData_patchData frame :
  newImageData (patchData frame) (Gifuct.width (Gifuct.dims frame))
               (Gifuct.height (Gifuct.dims frame))
  = if (Gifuct.width (Gifuct.dims frame) =? 0)
       || (Gifuct.height (Gifuct.dims frame) =? 0)
    then None
    else Some (mkImageData (Gifuct.width (Gifuct.dims frame))
                           (Gifuct.height (Gifuct.dims frame))
                           (patchData frame)).
Proof.
  unfold newImageData. rewrite patchData_length, Nat.eqb_refl. reflexivity.
Qed.

Lemma expandPixel_transparent frame c :
  Some c = Gifuct.transparentIndex frame →
  expandPixel frame c transparentBlack = transparentBlack.
Proof.
  intros E. unfold expandPixel. rewrite decide_True by exact E. reflexivity.
Qed.

Lemma sourceOver_transparent d : sourceOver transparentBlack d = d.
Proof. reflexivity. Qed.

Lemma sourceOver_opaque r g b d :
  sourceOver (mkRGBA r g b 255) d = mkRGBA r g b 255.
Proof. reflexivity. Qed.

Lemma applyDisposal_width w h prev img c :
  img_width (applyDisposal w h prev img c) = img_width c.
Proof.
  unfold applyDisposal.
  destruct prev as [p|]; [|reflexivity].
  destruct (Gifuct.disposalType p =? 2); [reflexivity|].
  destruct img; [|reflexivity].
  destruct (negb (Gifuct.disposalType p =? 3)); reflexivity.
Qed.

Lemma applyDisposal_height w h prev img c :
  img_height (applyDisposal w h prev img c) = img_height c.
Proof.
  unfold applyDisposal.
  destruct prev as [p|]; [|reflexivity].
  destruct (Gifuct.disposalType p =? 2); [reflexivity|].
  destruct img; [|reflexivity].
  destruct (negb (Gifuct.disposalType p =? 3)); reflexivity.
Qed.

(** What one iteration computes, when it does not throw. *)
Lemma processFrame_Some w h prev frame v v' :
  processFrame w h prev frame v = Some v' →
  let d := Gifuct.dims frame in
  let before :=
    applyDisposal w h prev (Compose.previousImageData v) (Compose.ctx v) in
  let stamped :=
    stampPatch (Compose.patchCtx v)
      (mkImageData (Gifuct.width d) (Gifuct.height d) (patchData frame)) in
  let drawn := drawImage before stamped (Gifuct.left d) (Gifuct.top d) in
  let dl := delayOrDefault (Gifuct.delay frame) in
  0 < Gifuct.width d ∧ 0 < Gifuct.height d ∧ 0 < w ∧ 0 < h
  ∧ v' = Compose.mkVars drawn stamped (Some (getImageData drawn w h))
           (Compose.processedFrames v ++ [mkFrame (getImageData drawn w h) dl])
           (Compose.originalDelays v ++ [dl]).
Proof.
  unfold processFrame. rewrite newImageData_patchData.
  destruct (Gifuct.width (Gifuct.dims frame)) as [|pw] eqn:Epw;
    [discriminate|].
  destruct (Gifuct.height (Gifuct.dims frame)) as [|ph] eqn:Eph;
    [discriminate|].
  simpl orb. cbv iota.
  destruct w as [|w]; [discriminate|].
  destruct h as [|h]; [discriminate|].
  simpl orb. cbv iota.
  intros E. injection E as <-. cbv zeta.
  repeat split; lia.
Qed.

(** An iteration throws for an empty patch or an empty canvas only. *)
Lemma processFrame_is_Some w h prev frame v :
  0 < Gifuct.width (Gifuct.dims frame) →
  0 < Gifuct.height (Gifuct.dims frame) →
  0 < w → 0 < h →
  is_Some (processFrame w h prev frame v).
Proof.
  intros Hpw Hph Hw Hh. unfold processFrame.
  rewrite newImageData_patchData.
  destruct (Gifuct.width (Gifuct.dims frame)) as [|pw]; [lia|].
  destruct (Gifuct.height (Gifuct.dims frame)) as [|ph]; [lia|].
  destruct w as [|w]; [lia|]. destruct h as [|h]; [lia|].
  simpl. eauto.
Qed.

Lemma getPixel_clearRect c x0 y0 w h x y :
  x < img_width c → y < img_height c →
  getPixel (clearRect c x0 y0 w h) x y
  = if inRect x0 y0 w h x y then transparentBlack else getPixel c x y.
Proof. intros Hx Hy. unfold clearRect. apply getPixel_tabulate; assumption. Qed.

Lemma getPixel_putImageData c img dx dy x y :
  x < img_width c → y < img_height c →
  getPixel (putImageData c img dx dy) x y
  = if inRect dx dy (img_width img) (img_height img) x y
    then getPixel img (x - dx) (y - dy)
    else getPixel c x y.
Proof.
  intros Hx Hy. unfold putImageData.
  rewrite getPixel_tabulate by assumption. reflexivity.
Qed.

Lemma getPixel_drawImage c src dx dy x y :
  x < img_width c → y < img_height c →
  getPixel (drawImage c src dx dy) x y
  = if inRect dx dy (img_width src) (img_height src) x y
    then sourceOver (getPixel src (x - dx) (y - dy)) (getPixel c x y)
    else getPixel c x y.
Proof.
  intros Hx Hy. unfold drawImage.
  rewrite getPixel_tabulate by assumption. reflexivity.
Qed.

Lemma getPixel_getImageData c w h x y :
  x < w → y < h → getPixel (getImageData c w h) x y = getPixel c x y.
Proof. intros Hx Hy. unfold getImageData. apply getPixel_tabulate; assumption. Qed.

(** A pixel of the expanded patch, read back from its [ImageData]. *)
Lemma getPixel_patch frame x y c :
  let d := Gifuct.dims frame in
  x < Gifuct.width d → y < Gifuct.height d →
  Gifuct.pixels frame !! (y * Gifuct.width d + x) = Some c →
  getPixel (mkImageData (Gifuct.width d) (Gifuct.height d) (patchData frame)) x y
  = expandPixel frame c transparentBlack.
Proof.
  intros d Hx Hy Hpx. unfold getPixel. simpl.
  assert (Hin : inside (Gifuct.width d) (Gifuct.height d) x y = true)
    by (apply inside_true; lia).
  rewrite Hin.
  rewrite (patchData_lookup frame _ c Hpx)
    by (apply row_major_bound; assumption).
  reflexivity.
Qed.

(** The pixel of the canvas under patch position [(x, y)] after the patch
    has been drawn: the expanded patch pixel composited over what the
    disposal step left there. *)
Lemma drawn_pixel w h prev frame v v' x y c :
  loopInv w h v →
  processFrame w h prev frame v = Some v' →
  let d := Gifuct.dims frame in
  x < Gifuct.width d → y < Gifuct.height d →
  Gifuct.left d + x < w → Gifuct.top d + y < h →
  Gifuct.pixels frame !! (y * Gifuct.width d + x) = Some c →
  let before :=
    applyDisposal w h prev (Compose.previousImageData v) (Compose.ctx v) in
  ∃ fr, Compose.processedFrames v' = Compose.processedFrames v ++ [fr]
        ∧ getPixel (imageData fr) (Gifuct.left d + x) (Gifuct.top d + y)
          = sourceOver (expandPixel frame c transparentBlack)
              (getPixel before (Gifuct.left d + x) (Gifuct.top d + y)).
Proof.
  intros (Hcw & Hch & Hpw & Hph & _) Hstep d Hx Hy HX HY Hpx before.
  apply processFrame_Some in Hstep. cbv zeta in Hstep.
  destruct Hstep as (_ & _ & _ & _ & ->). simpl.
  eexists. split; [reflexivity|]. simpl.
  rewrite getPixel_getImageData by assumption.
  fold d. fold before.
  rewrite getPixel_drawImage
    by (unfold before; rewrite ?applyDisposal_width, ?applyDisposal_height; lia).
  assert (Hrect : inRect (Gifuct.left d) (Gifuct.top d)
            (img_width (stampPatch (Compose.patchCtx v)
               (mkImageData (Gifuct.width d) (Gifuct.height d) (patchData frame))))
            (img_height (stampPatch (Compose.patchCtx v)
               (mkImageData (Gifuct.width d) (Gifuct.height d) (patchData frame))))
            (Gifuct.left d + x) (Gifuct.top d + y) = true).
  { apply inRect_true. simpl. lia. }
  rewrite Hrect.
  replace (Gifuct.left d + x - Gifuct.left d) with x by lia.
  replace (Gifuct.top d + y - Gifuct.top d) with y by lia.
  unfold stampPatch. rewrite getPixel_putImageData by lia.
  assert (Hrect0 : inRect 0 0 (Gifuct.width d) (Gifuct.height d) x y = true)
    by (apply inRect_true; lia).
  simpl img_width. simpl img_height. rewrite Hrect0.
  rewrite !Nat.sub_0_r.
  pose proof (getPixel_patch frame x y c Hx Hy Hpx) as Hpatch.
  cbv zeta in Hpatch. fold d in Hpatch. rewrite Hpatch. reflexivity.
Qed.

(** C6: for a patch pixel at [(x, y)] whose destination lies on the canvas,
    the frame recorded by the iteration holds, at the placement offset,
    either what the canvas held after the disposal step (colour index equal
    to the patch's transparent index) or the colour-table entry, fully
    opaque. *)
Theorem transparent_index_shows_through
    (w h : nat) (prev : option Gifuct.ParsedFrame) (frame : Gifuct.ParsedFrame)
    (v v' : Compose.Vars) (x y c : nat) :
  loopInv w h v →
  processFrame w h prev frame v = Some v' →
  let d := Gifuct.dims frame in
  x < Gifuct.width d → y < Gifuct.height d →
  Gifuct.left d + x < w → Gifuct.top d + y < h →
  Gifuct.pixels frame !! (y * Gifuct.width d + x) = Some c →
  let before :=
    applyDisposal w h prev (Compose.previousImageData v) (Compose.ctx v) in
  ∃ fr, Compose.processedFrames v' = Compose.processedFrames v ++ [fr]
        ∧ getPixel (imageData fr) (Gifuct.left d + x) (Gifuct.top d + y)
          = if decide (Some c = Gifuct.transparentIndex frame)
            then getPixel before (Gifuct.left d + x) (Gifuct.top d + y)
            else
              let '(r, g, b) :=
                default (0, 0, 0)%Z (Gifuct.colorTable frame !! c) in
              mkRGBA (clamp8 r) (clamp8 g) (clamp8 b) 255.
Proof.
  intros Hinv Hstep d Hx Hy HX HY Hpx before.
  destruct (drawn_pixel w h prev frame v v' x y c Hinv Hstep Hx Hy HX HY Hpx)
    as (fr & Hlast & Hpix).
  exists fr. split; [exact Hlast|].
  fold d in Hpix. fold before in Hpix. rewrite Hpix.
  destruct (decide (Some c = Gifuct.transparentIndex frame)) as [E|E].
  - rewrite expandPixel_transparent by exact E. apply sourceOver_transparent.
  - unfold expandPixel. rewrite decide_False by exact E.
    destruct (default (0, 0, 0)%Z (Gifuct.colorTable frame !! c)) as [[r g] b].
    apply sourceOver_opaque.
Qed.

Lemma tabulate_ext w h f g :
  (∀ x y, x < w → y < h → f x y = g x y) → tabulate w h f = tabulate w h g.
Proof.
  intros Hfg. unfold tabulate. f_equal.
  apply list_fmap_ext. intros i k Hk.
  apply lookup_seq in Hk. destruct Hk as [-> Hi]. simpl.
  assert (Hw : 0 < w) by nia.
  apply Hfg.
  - apply Nat.mod_upper_bound. lia.
  - apply Nat.Div0.div_lt_upper_bound. lia.
Qed.

(** Putting a full-size image at the origin replaces the whole bitmap. *)
Lemma putImageData_full c img :
  wellSized img →
  img_width c = img_width img → img_height c = img_height img →
  putImageData c img 0 0 = img.
Proof.
  intros Hsz Hw Hh. unfold putImageData. rewrite Hw, Hh.
  transitivity (tabulate (img_width img) (img_height img) (getPixel img));
    [|apply tabulate_getPixel, Hsz].
  apply tabulate_ext. intros x y Hx Hy.
  assert (E : inRect 0 0 (img_width img) (img_height img) x y = true)
    by (apply inRect_true; lia).
  rewrite E, !Nat.sub_0_r. reflexivity.
Qed.

Lemma clearRect_full c :
  clearRect c 0 0 (img_width c) (img_height c)
  = blank (img_width c) (img_height c).
Proof.
  unfold clearRect, blank. apply tabulate_ext. intros x y Hx Hy.
  assert (E : inRect 0 0 (img_width c) (img_height c) x y = true)
    by (apply inRect_true; lia).
  rewrite E. reflexivity.
Qed.

(** *** The loop invariant *)

Lemma loopInv_start w h : loopInv w h (Compose.start w h).
Proof. unfold loopInv. simpl. repeat split. constructor. Qed.

Lemma loopInv_step w h prev frame v v' :
  loopInv w h v → processFrame w h prev frame v = Some v' → loopInv w h v'.
Proof.
  intros (Hcw & Hch & Hpw & Hph & Hdl & Hfr) Hstep.
  apply processFrame_Some in Hstep. cbv zeta in Hstep.
  destruct Hstep as (_ & _ & _ & _ & ->).
  unfold loopInv. simpl.
  rewrite applyDisposal_width, applyDisposal_height.
  repeat split; try assumption.
  - rewrite Hdl, fmap_app. reflexivity.
  - apply Forall_app. split; [exact Hfr|].
    constructor; [|constructor]. simpl.
    split; [apply wellSized_tabulate|]. split; reflexivity.
Qed.

Lemma loopInv_steps w h todo : ∀ prev v v',
  loopInv w h v → processFrames w h prev todo v = Some v' →
  loopInv w h v'
  ∧ length (Compose.processedFrames v')
    = length (Compose.processedFrames v) + length todo.
Proof.
  induction todo as [|frame rest IH]; intros prev v v' Hinv Hrun; simpl in Hrun.
  - injection Hrun as <-. split; [exact Hinv|]. simpl. lia.
  - destruct (processFrame w h prev frame v) as [v1|] eqn:E; [|discriminate].
    destruct (IH _ _ _ (loopInv_step _ _ _ _ _ _ Hinv E) Hrun) as [Hinv' Hlen].
    split; [exact Hinv'|]. rewrite Hlen.
    apply processFrame_Some in E. cbv zeta in E.
    destruct E as (_ & _ & _ & _ & ->). simpl.
    rewrite length_app. simpl. lia.
Qed.

(** A pass that does not throw yields one frame and one delay per patch,
    every frame a full bitmap of the size of the first patch. *)
Lemma composite_inv gifFrames w h v :
  composite gifFrames = Some (w, h, v) →
  loopInv w h v
  ∧ length (Compose.processedFrames v) = length gifFrames
  ∧ gifFrames ≠ [].
Proof.
  unfold composite. destruct gifFrames as [|first rest]; [discriminate|].
  destruct (processFrames _ _ None (first :: rest) _) as [v1|] eqn:E;
    [|discriminate].
  intros H. injection H as <- <- <-.
  destruct (loopInv_steps _ _ _ _ _ _ (loopInv_start _ _) E) as [Hinv Hlen].
  split; [exact Hinv|]. split; [exact Hlen|]. discriminate.
Qed.

(** *** The compositor never blends *)

Lemma binary_transparentBlack : binary transparentBlack.
Proof. left. reflexivity. Qed.

Lemma binary_sourceOver s d : binary s → binary d → binary (sourceOver s d).
Proof.
  intros Hs Hd. unfold sourceOver.
  destruct (alpha s =? 255)%Z eqn:E1; [exact Hs|].
  destruct (alpha s =? 0)%Z eqn:E2; [exact Hd|].
  apply Z.eqb_neq in E1, E2. destruct Hs; contradiction.
Qed.

Lemma binary_expandPixel frame c old : binary (expandPixel frame c old).
Proof.
  unfold expandPixel.
  destruct (decide (Some c = Gifuct.transparentIndex frame)).
  - left. reflexivity.
  - destruct (default (0, 0, 0)%Z (Gifuct.colorTable frame !! c)) as [[r g] b].
    right. reflexivity.
Qed.

Lemma allBinary_tabulate w h f :
  (∀ x y, x < w → y < h → binary (f x y)) → allBinary (tabulate w h f).
Proof.
  intros Hf x y. destruct (decide (x < w ∧ y < h)) as [[Hx Hy]|Hout].
  - rewrite getPixel_tabulate by assumption. apply Hf; assumption.
  - rewrite getPixel_outside by exact Hout. apply binary_transparentBlack.
Qed.

Lemma fillPatch_binary frame px : ∀ j data,
  Forall binary data → Forall binary (fillPatch frame px j data).
Proof.
  induction px as [|c px IH]; intros j data Hdata; simpl; [exact Hdata|].
  apply IH, Forall_alter; [exact Hdata|].
  intros old _ _. apply binary_expandPixel.
Qed.

Lemma allBinary_patch frame :
  allBinary (mkImageData (Gifuct.width (Gifuct.dims frame))
                         (Gifuct.height (Gifuct.dims frame)) (patchData frame)).
Proof.
  intros x y. unfold getPixel. simpl.
  destruct (inside _ _ x y); [|apply binary_transparentBlack].
  destruct (patchData frame !! _) as [p|] eqn:E;
    [|apply binary_transparentBlack].
  simpl. revert E. apply Forall_lookup_1.
  unfold patchData. apply fillPatch_binary, Forall_replicate.
  apply binary_transparentBlack.
Qed.

Lemma allBinary_clearRect c x0 y0 w h :
  allBinary c → allBinary (clearRect c x0 y0 w h).
Proof.
  intros Hc. apply allBinary_tabulate. intros x y _ _.
  destruct (inRect x0 y0 w h x y); [apply binary_transparentBlack|apply Hc].
Qed.

Lemma allBinary_putImageData c img dx dy :
  allBinary c → allBinary img → allBinary (putImageData c img dx dy).
Proof.
  intros Hc Hi. apply allBinary_tabulate. intros x y _ _.
  destruct (inRect dx dy _ _ x y); [apply Hi|apply Hc].
Qed.

Lemma allBinary_drawImage c src dx dy :
  allBinary c → allBinary src → allBinary (drawImage c src dx dy).
Proof.
  intros Hc Hs. apply allBinary_tabulate. intros x y _ _.
  destruct (inRect dx dy _ _ x y); [|apply Hc].
  apply binary_sourceOver; [apply Hs|apply Hc].
Qed.

Lemma allBinary_getImageData c w h : allBinary c → allBinary (getImageData c w h).
Proof. intros Hc. apply allBinary_tabulate. intros x y _ _. apply Hc. Qed.

Lemma allBinary_applyDisposal w h prev img c :
  allBinary c → (∀ i, img = Some i → allBinary i) →
  allBinary (applyDisposal w h prev img c).
Proof.
  intros Hc Hi. unfold applyDisposal.
  destruct prev as [p|]; [|apply allBinary_clearRect, Hc].
  destruct (Gifuct.disposalType p =? 2); [apply allBinary_clearRect, Hc|].
  destruct img as [i|]; [|exact Hc].
  destruct (negb (Gifuct.disposalType p =? 3)); [|exact Hc].
  apply allBinary_putImageData; [exact Hc|]. apply (Hi i). reflexivity.
Qed.

Lemma crisp_start w h : crisp (Compose.start w h).
Proof.
  unfold crisp. simpl.
  assert (Hb : allBinary (blank w h)).
  { apply allBinary_tabulate. intros. apply binary_transparentBlack. }
  split; [exact Hb|]. split; [exact Hb|].
  split; [intros img H; discriminate H|constructor].
Qed.

Lemma crisp_step w h prev frame v v' :
  crisp v → processFrame w h prev frame v = Some v' → crisp v'.
Proof.
  intros (Hc & Hp & Hprev & Hfr) Hstep.
  apply processFrame_Some in Hstep. cbv zeta in Hstep.
  destruct Hstep as (_ & _ & _ & _ & ->).
  assert (Hstamp : allBinary
            (stampPatch (Compose.patchCtx v)
               (mkImageData (Gifuct.width (Gifuct.dims frame))
                  (Gifuct.height (Gifuct.dims frame)) (patchData frame)))).
  { apply allBinary_putImageData; [exact Hp|apply allBinary_patch]. }
  assert (Hdrawn : allBinary
            (drawImage
               (applyDisposal w h prev (Compose.previousImageData v)
                  (Compose.ctx v))
               (stampPatch (Compose.patchCtx v)
                  (mkImageData (Gifuct.width (Gifuct.dims frame))
                     (Gifuct.height (Gifuct.dims frame)) (patchData frame)))
               (Gifuct.left (Gifuct.dims frame))
               (Gifuct.top (Gifuct.dims frame)))).
  { apply allBinary_drawImage; [|exact Hstamp].
    apply allBinary_applyDisposal; assumption. }
  unfold crisp. simpl.
  split; [exact Hdrawn|]. split; [exact Hstamp|].
  split.
  - intros img H. injection H as <-. apply allBinary_getImageData, Hdrawn.
  - apply Forall_app. split; [exact Hfr|].
    constructor; [|constructor]. simpl. apply allBinary_getImageData, Hdrawn.
Qed.

(** Every frame of a pass holds fully transparent and fully opaque pixels
    only, so the blending branch of [sourceOver] is never taken. *)
Lemma composite_crisp gifFrames w h v :
  composite gifFrames = Some (w, h, v) → crisp v.
Proof.
  unfold composite. destruct gifFrames as [|first rest]; [discriminate|].
  destruct (processFrames _ _ None (first :: rest) _) as [v1|] eqn:E;
    [|discriminate].
  intros H. injection H as <- <- <-.
  revert E. generalize (crisp_start (Gifuct.width (Gifuct.dims first))
                          (Gifuct.height (Gifuct.dims first))).
  generalize (Compose.start (Gifuct.width (Gifuct.dims first))
                (Gifuct.height (Gifuct.dims first))).
  generalize (@None Gifuct.ParsedFrame).
  generalize (Gifuct.width (Gifuct.dims first)) as cw.
  generalize (Gifuct.height (Gifuct.dims first)) as chh.
  induction (first :: rest) as [|frame todo IH];
    intros chh cw prev v0 Hv0 Hrun; simpl in Hrun.
  - injection Hrun as <-. exact Hv0.
  - destruct (processFrame cw chh prev frame v0) as [v2|] eqn:E2;
      [|discriminate].
    apply (IH chh cw (Some frame) v2); [|exact Hrun].
    apply (crisp_step _ _ _ _ _ _ Hv0 E2).
Qed.

(** C6 on a 2 x 1 canvas painted red: a patch pixel at (1, 0) with the
    transparent index leaves the red pixel in the recorded frame. *)
Lemma transparent_index_shows_through_witness :
  let v := afterPatches 2 1 [redPair] in
  let v' := afterPatches 2 1 [redPair; clearPoint] in
  (loopInv 2 1 v
   ∧ processFrame 2 1 (Some redPair) clearPoint v = Some v'
   ∧ 0 < 1 ∧ 0 < 1 ∧ 1 + 0 < 2 ∧ 0 + 0 < 1
   ∧ Gifuct.pixels clearPoint !! 0 = Some 7)
  ∧ ∃ fr, Compose.processedFrames v' = Compose.processedFrames v ++ [fr]
          ∧ getPixel (imageData fr) 1 0 = opaqueRed.
Proof.
  intros v v'.
  assert (Hinv : loopInv 2 1 v).
  { unfold loopInv. vm_compute. repeat split. repeat constructor. }
  assert (Hstep : processFrame 2 1 (Some redPair) clearPoint v = Some v')
    by (vm_compute; reflexivity).
  assert (Hpx : Gifuct.pixels clearPoint !! 0 = Some 7) by reflexivity.
  split; [repeat (split; [first [assumption|lia]|]); first [assumption|lia]|].
  destruct (transparent_index_shows_through 2 1 (Some redPair) clearPoint
              v v' 0 0 7 Hinv Hstep ltac:(simpl; lia) ltac:(simpl; lia)
              ltac:(simpl; lia) ltac:(simpl; lia) Hpx)
    as (fr & Hfr & Hpix).
  exists fr. split; [exact Hfr|].
  simpl in Hpix. rewrite Hpix. vm_compute. reflexivity.
Defined.

(** C10: a colour index that is neither the transparent index nor an index
    of the colour table is expanded to opaque black, and the iteration goes
    through: the patch buffer holds opaque black at that pixel, and so does
    the recorded frame at the placement offset. *)
Theorem missing_colour_is_opaque_black
    (w h : nat) (prev : option Gifuct.ParsedFrame) (frame : Gifuct.ParsedFrame)
    (v : Compose.Vars) (x y c : nat) :
  loopInv w h v →
  let d := Gifuct.dims frame in
  x < Gifuct.width d → y < Gifuct.height d →
  Gifuct.left d + x < w → Gifuct.top d + y < h →
  Gifuct.pixels frame !! (y * Gifuct.width d + x) = Some c →
  Some c ≠ Gifuct.transparentIndex frame →
  Gifuct.colorTable frame !! c = None →
  patchData frame !! (y * Gifuct.width d + x) = Some opaqueBlack
  ∧ ∃ v' fr,
      processFrame w h prev frame v = Some v'
      ∧ Compose.processedFrames v' = Compose.processedFrames v ++ [fr]
      ∧ getPixel (imageData fr) (Gifuct.left d + x) (Gifuct.top d + y)
        = opaqueBlack.
Proof.
  intros Hinv d Hx Hy HX HY Hpx Hnt Hnone.
  assert (Hexp : expandPixel frame c transparentBlack = opaqueBlack).
  { unfold expandPixel. rewrite decide_False by exact Hnt.
    rewrite Hnone. reflexivity. }
  split.
  - rewrite (patchData_lookup frame _ c Hpx)
      by (apply row_major_bound; assumption).
    rewrite Hexp. reflexivity.
  - destruct (processFrame_is_Some w h prev frame v) as [v' Hstep];
      [fold d; lia..|].
    destruct (drawn_pixel w h prev frame v v' x y c Hinv Hstep Hx Hy HX HY Hpx)
      as (fr & Hfr & Hpix).
    exists v', fr. split; [exact Hstep|]. split; [exact Hfr|].
    fold d in Hpix. rewrite Hpix, Hexp. reflexivity.
Qed.

(** C10 on a 2 x 1 canvas painted red: colour index 9 in a two-entry
    palette. *)
Lemma missing_colour_is_opaque_black_witness :
  let v := afterPatches 2 1 [redPair] in
  (loopInv 2 1 v
   ∧ 0 < 1 ∧ 0 < 1 ∧ 1 + 0 < 2 ∧ 0 + 0 < 1
   ∧ Gifuct.pixels strayPoint !! 0 = Some 9
   ∧ Some 9 ≠ Gifuct.transparentIndex strayPoint
   ∧ Gifuct.colorTable strayPoint !! 9 = None)
  ∧ patchData strayPoint !! 0 = Some opaqueBlack
  ∧ ∃ v' fr,
      processFrame 2 1 (Some redPair) strayPoint v = Some v'
      ∧ Compose.processedFrames v' = Compose.processedFrames v ++ [fr]
      ∧ getPixel (imageData fr) 1 0 = opaqueBlack.
Proof.
  intros v.
  assert (Hinv : loopInv 2 1 v).
  { unfold loopInv. vm_compute. repeat split. repeat constructor. }
  assert (Hpx : Gifuct.pixels strayPoint !! 0 = Some 9) by reflexivity.
  assert (Hnt : Some 9 ≠ Gifuct.transparentIndex strayPoint)
    by (simpl; intros H; discriminate H).
  assert (Hnone : Gifuct.colorTable strayPoint !! 9 = None) by reflexivity.
  split; [repeat (split; [first [assumption|lia]|]); first [assumption|lia]|].
  exact (missing_colour_is_opaque_black 2 1 (Some redPair) strayPoint v 0 0 9
           Hinv ltac:(simpl; lia) ltac:(simpl; lia) ltac:(simpl; lia)
           ltac:(simpl; lia) Hpx Hnt Hnone).
Defined.

(** *** Disposal *)

(** C4, as the code has it: when the previous patch has disposal code 2 the
    disposal step clears the whole canvas, not only the rectangle of that
    patch: every pixel is transparent before the next patch is drawn. *)
Theorem disposal2_clears_whole_canvas
    (w h : nat) (p : Gifuct.ParsedFrame) (previousImageData : option ImageData)
    (ctx : ImageData) :
  Gifuct.disposalType p = 2 →
  img_width ctx = w → img_height ctx = h →
  applyDisposal w h (Some p) previousImageData ctx = blank w h
  ∧ ∀ x y,
      getPixel (applyDisposal w h (Some p) previousImageData ctx) x y
      = transparentBlack.
Proof.
  intros Hd Hw Hh.
  assert (E : applyDisposal w h (Some p) previousImageData ctx = blank w h).
  { unfold applyDisposal. rewrite Hd. simpl. subst w h. apply clearRect_full. }
  split; [exact E|]. intros x y. rewrite E.
  destruct (decide (x < w ∧ y < h)) as [[Hx Hy]|Hout].
  - unfold blank. apply getPixel_tabulate; assumption.
  - apply getPixel_outside. exact Hout.
Qed.

(** C4 after a full red frame and a one-pixel patch with disposal code 2. *)
Lemma disposal2_clears_whole_canvas_witness :
  let v := afterPatches 2 1 [redPair; bluePoint] in
  let after :=
    applyDisposal 2 1 (Some bluePoint) (Compose.previousImageData v)
                  (Compose.ctx v) in
  (Gifuct.disposalType bluePoint = 2
   ∧ img_width (Compose.ctx v) = 2 ∧ img_height (Compose.ctx v) = 1)
  ∧ after = blank 2 1
  ∧ ∀ x y, getPixel after x y = transparentBlack.
Proof.
  intros v after.
  assert (Hd : Gifuct.disposalType bluePoint = 2) by reflexivity.
  assert (Hw : img_width (Compose.ctx v) = 2) by reflexivity.
  assert (Hh : img_height (Compose.ctx v) = 1) by reflexivity.
  split; [auto|].
  exact (disposal2_clears_whole_canvas 2 1 bluePoint
           (Compose.previousImageData v) (Compose.ctx v) Hd Hw Hh).
Defined.

(** C4 fails as stated: the pixel at (1, 0) lies outside the rectangle of
    the one-pixel patch at the origin, is red before the disposal step and
    transparent after it. *)
Lemma disposal2_clears_beyond_patch :
  let v := afterPatches 2 1 [redPair; bluePoint] in
  let d := Gifuct.dims bluePoint in
  let after :=
    applyDisposal 2 1 (Some bluePoint) (Compose.previousImageData v)
                  (Compose.ctx v) in
  Gifuct.disposalType bluePoint = 2
  ∧ inRect (Gifuct.left d) (Gifuct.top d) (Gifuct.width d) (Gifuct.height d)
           1 0 = false
  ∧ getPixel (Compose.ctx v) 1 0 = opaqueRed
  ∧ getPixel after 1 0 = transparentBlack
  ∧ getPixel after 1 0 ≠ getPixel (Compose.ctx v) 1 0.
Proof.
  intros v d after.
  assert (E1 : getPixel (Compose.ctx v) 1 0 = opaqueRed)
    by (vm_compute; reflexivity).
  assert (E2 : getPixel after 1 0 = transparentBlack)
    by (vm_compute; reflexivity).
  split; [reflexivity|]. split; [reflexivity|].
  split; [exact E1|]. split; [exact E2|].
  rewrite E1, E2. intros H. discriminate H.
Qed.

(** With disposal code 3 on the previous patch the disposal step changes
    nothing: no branch of it restores an earlier snapshot. *)
Lemma applyDisposal_code3 w h p previousImageData ctx :
  Gifuct.disposalType p = 3 →
  applyDisposal w h (Some p) previousImageData ctx = ctx.
Proof.
  intros Hd. unfold applyDisposal. rewrite Hd. simpl.
  destruct previousImageData; reflexivity.
Qed.

(** C2 on the code: a red one-pixel patch with disposal code 3, then a patch
    whose only pixel is transparent.  Immediately before the first patch was
    drawn the canvas was blank; before the second patch is drawn the canvas
    still holds the red pixel, and so does the second frame. *)
Theorem disposal3_leaves_patch_drawn :
  let v0 := afterPatches 1 1 [redRestore] in
  let v1 := afterPatches 1 1 [redRestore; seeThrough] in
  let snapshot := applyDisposal 1 1 None None (Compose.ctx (Compose.start 1 1)) in
  let before1 :=
    applyDisposal 1 1 (Some redRestore) (Compose.previousImageData v0)
                  (Compose.ctx v0) in
  Gifuct.disposalType redRestore = 3
  ∧ processFrames 1 1 None [redRestore; seeThrough] (Compose.start 1 1) = Some v1
  ∧ getPixel snapshot 0 0 = transparentBlack
  ∧ before1 = Compose.ctx v0
  ∧ getPixel before1 0 0 = opaqueRed
  ∧ before1 ≠ snapshot
  ∧ (λ f, getPixel (imageData f) 0 0) <$> Compose.processedFrames v1
    = [opaqueRed; opaqueRed].
Proof.
  intros v0 v1 snapshot before1.
  split; [reflexivity|].
  split; [vm_compute; reflexivity|].
  split; [vm_compute; reflexivity|].
  split; [apply applyDisposal_code3; reflexivity|].
  split; [vm_compute; reflexivity|].
  split; [vm_compute; intros H; discriminate H|].
  vm_compute. reflexivity.
Qed.

(** ** Loading *)

Lemma loadGif_begin_state h :
  state (loadGif_begin h)
  = {| frames := []; width := width (state h); height := height (state h);
       currentFrameIndex := 0; isPlaying := false;
       originalDelays := originalDelays (state h); isLoading := true;
       error := None |}.
Proof. unfold loadGif_begin. simpl. rewrite cancelPending_state. reflexivity. Qed.

(** A load reports failure exactly when its [try] block throws. *)
Lemma loadGif_false b h :
  (loadGif b h).2 = false ↔ ∃ message, tryLoad b = inl message.
Proof.
  unfold loadGif, loadGif_settle.
  destruct (tryLoad b) as [m|[[w hgt] v]]; simpl.
  - split; eauto.
  - split; [discriminate|]. intros [m Hm]. discriminate Hm.
Qed.

(** The failures named by the specification all make the [try] block
    throw. *)
Lemma tryLoad_throws b :
  (match fetched b with
   | FetchRejected _ | FetchNotOk _ _ | BodyUnreadable | Unparsable
   | Decoded [] => True
   | Decoded (_ :: _) => False
   end) →
  ∃ message, tryLoad b = inl message.
Proof.
  unfold tryLoad. destruct (fetched b) as [m|st tx| | |[|f fs]];
    intros H; try contradiction; eauto.
Qed.

Lemma sameStore_refl s : sameStore s s.
Proof. unfold sameStore. auto. Qed.

Lemma animate_sameStore cl timestamp h :
  sameStore (state h) (state (animate cl timestamp h)).
Proof.
  unfold animate. destruct (animationRef h); [|apply sameStore_refl].
  destruct (closedFrames cl !! localFrameIndex cl) as [currentFrame|];
    [|apply sameStore_refl].
  simpl. destruct (delay currentFrame <=? _)%Z;
    unfold sameStore; simpl; auto.
Qed.

Lemma step_sameStore e h :
  match e with
  | LoadGifBegin | LoadGifSettle _ => True
  | _ => sameStore (state h) (state (step e h))
  end.
Proof.
  assert (Hplay : ∀ render now, sameStore (state h) (state (playFrom render now h))).
  { intros render now. unfold playFrom.
    destruct ((length (frames render) =? 0) || isPlaying render);
      [apply sameStore_refl|].
    simpl. rewrite cancelPending_state. unfold sameStore. simpl. auto. }
  destruct e as [|b|now| | |id timestamp|render now]; simpl; try exact I;
    try apply Hplay.
  - unfold pause. simpl. rewrite cancelPending_state.
    unfold sameStore. simpl. auto.
  - unfold reset. simpl. rewrite cancelPending_state.
    unfold sameStore. simpl. auto.
  - unfold runFrameCallback.
    destruct (list_find _ _) as [[i [i' cl]]|]; [|apply sameStore_refl].
    apply (animate_sameStore cl timestamp (cancelAnimationFrame id h)).
Qed.

(** While no load settles well, an empty frame list stays empty and the
    size and the delays stay what they were. *)
Lemma run_without_install evs : ∀ h,
  forallb (λ e, negb (installs e)) evs = true →
  frames (state h) = [] →
  frames (state (run evs h)) = []
  ∧ width (state (run evs h)) = width (state h)
  ∧ height (state (run evs h)) = height (state h)
  ∧ originalDelays (state (run evs h)) = originalDelays (state h).
Proof.
  induction evs as [|e evs IH]; intros h Hq Hnil; [auto|].
  change (run (e :: evs) h) with (run evs (step e h)).
  simpl in Hq. apply andb_prop in Hq. destruct Hq as [He Hq'].
  apply negb_true_iff in He.
  assert (Hstep : frames (state (step e h)) = []
                  ∧ width (state (step e h)) = width (state h)
                  ∧ height (state (step e h)) = height (state h)
                  ∧ originalDelays (state (step e h)) = originalDelays (state h)).
  { pose proof (step_sameStore e h) as Hsame.
    destruct e as [|b|now| | |id timestamp|render now];
      try (destruct Hsame as (Hf & Hw & Hh & Hd); rewrite Hf; auto).
    - change (step LoadGifBegin h) with (loadGif_begin h).
      rewrite loadGif_begin_state. simpl. auto.
    - simpl in He. simpl. unfold loadGif_settle.
      destruct (tryLoad b) as [m|r]; [|discriminate He]. simpl. auto. }
  destruct Hstep as (Hf & Hw & Hh & Hd).
  destruct (IH _ Hq' Hf) as (Hf' & Hw' & Hh' & Hd').
  rewrite Hw', Hh', Hd'. auto.
Qed.

(** C3, as the code has it.  Other calls, ticks and loads may fall between
    the start of a load and the moment it fails ([between]).  The start
    empties the frame list, puts the cursor on 0 and stops playback, keeping
    the size and the delays.  The failure itself installs nothing: it sets
    [isLoading] and [error] and leaves every other field as it finds it.  So
    the frames from before the load are gone; unless another load installed
    frames in the meantime, the list is empty after the failure and the
    size and the delays are still those from before the load. *)
Theorem failed_load_empties_frames
    (b : Browser) (h : Hook) (between : list Event) :
  let h1 := loadGif_begin h in
  let h2 := run between h1 in
  let h3 := (loadGif_settle b h2).1 in
  (loadGif_settle b h2).2 = false →
  (frames (state h1) = []
   ∧ width (state h1) = width (state h) ∧ height (state h1) = height (state h)
   ∧ originalDelays (state h1) = originalDelays (state h)
   ∧ currentFrameIndex (state h1) = 0 ∧ isPlaying (state h1) = false)
  ∧ (frames (state h3) = frames (state h2)
     ∧ width (state h3) = width (state h2)
     ∧ height (state h3) = height (state h2)
     ∧ originalDelays (state h3) = originalDelays (state h2)
     ∧ currentFrameIndex (state h3) = currentFrameIndex (state h2)
     ∧ isPlaying (state h3) = isPlaying (state h2)
     ∧ isLoading (state h3) = false
     ∧ ∃ message, tryLoad b = inl message ∧ error (state h3) = Some message)
  ∧ (if forallb (λ e, negb (installs e)) between
     then frames (state h3) = []
          ∧ width (state h3) = width (state h)
          ∧ height (state h3) = height (state h)
          ∧ originalDelays (state h3) = originalDelays (state h)
     else True).
Proof.
  intros h1 h2 h3 Hfail.
  assert (Hbegin : state h1
            = {| frames := []; width := width (state h);
                 height := height (state h); currentFrameIndex := 0;
                 isPlaying := false;
                 originalDelays := originalDelays (state h);
                 isLoading := true; error := None |})
    by apply loadGif_begin_state.
  assert (Hsettle : ∃ message, tryLoad b = inl message
            ∧ state h3
              = {| frames := frames (state h2); width := width (state h2);
                   height := height (state h2);
                   currentFrameIndex := currentFrameIndex (state h2);
                   isPlaying := isPlaying (state h2);
                   originalDelays := originalDelays (state h2);
                   isLoading := false; error := Some message |}).
  { unfold h3. unfold loadGif_settle in *.
    destruct (tryLoad b) as [m|[[w hgt] v]]; [|discriminate Hfail].
    exists m. split; reflexivity. }
  destruct Hsettle as (m & Hm & Hst).
  split; [rewrite Hbegin; simpl; auto 10|].
  split; [rewrite Hst; simpl; eauto 10|].
  destruct (forallb (λ e, negb (installs e)) between) eqn:Hquiet; [|exact I].
  destruct (run_without_install between h1 Hquiet) as (Hf & Hw & Hh & Hd);
    [rewrite Hbegin; reflexivity|].
  fold h2 in Hf, Hw, Hh, Hd.
  rewrite Hst. simpl. rewrite Hf, Hw, Hh, Hd, Hbegin. simpl. auto.
Qed.

(** C3 on a failed reload of the three-frame store, with a [play] kept from
    the render before the reload, a tick and a [pause] falling between its
    start and its failure. *)
Lemma failed_load_empties_frames_witness :
  let h := threeFrameHook in
  let between :=
    [PlayFrom (state threeFrameHook) 0; FrameCallback 1%positive 150; Pause] in
  let h1 := loadGif_begin h in
  let h2 := run between h1 in
  let h3 := (loadGif_settle offline h2).1 in
  ((loadGif_settle offline h2).2 = false
   ∧ forallb (λ e, negb (installs e)) between = true)
  ∧ (frames (state h1) = []
     ∧ width (state h1) = width (state h) ∧ height (state h1) = height (state h)
     ∧ originalDelays (state h1) = originalDelays (state h)
     ∧ currentFrameIndex (state h1) = 0 ∧ isPlaying (state h1) = false)
  ∧ (frames (state h3) = frames (state h2)
     ∧ width (state h3) = width (state h2)
     ∧ height (state h3) = height (state h2)
     ∧ originalDelays (state h3) = originalDelays (state h2)
     ∧ currentFrameIndex (state h3) = currentFrameIndex (state h2)
     ∧ isPlaying (state h3) = isPlaying (state h2)
     ∧ isLoading (state h3) = false
     ∧ ∃ message, tryLoad offline = inl message
                  ∧ error (state h3) = Some message)
  ∧ (if forallb (λ e, negb (installs e)) between
     then frames (state h3) = []
          ∧ width (state h3) = width (state h)
          ∧ height (state h3) = height (state h)
          ∧ originalDelays (state h3) = originalDelays (state h)
     else True).
Proof.
  intros h between h1 h2 h3.
  assert (Hfail : (loadGif_settle offline h2).2 = false) by reflexivity.
  split; [split; [exact Hfail|reflexivity]|].
  exact (failed_load_empties_frames offline h between Hfail).
Defined.

(** C3 fails as stated: the three frames present before a failed reload are
    gone after it. *)
Lemma failed_load_drops_previous_frames :
  let after := loadGif offline threeFrameHook in
  after.2 = false
  ∧ length (frames (state threeFrameHook)) = 3
  ∧ frames (state after.1) = []
  ∧ frames (state after.1) ≠ frames (state threeFrameHook).
Proof.
  intros after.
  split; [reflexivity|]. split; [reflexivity|]. split; [reflexivity|].
  vm_compute. intros H. discriminate H.
Qed.

(** ** The frame store along every run of the hook *)

Lemma storeInv_sameStore s s' : sameStore s s' → storeInv s → storeInv s'.
Proof.
  intros (Hf & Hw & Hh & Hd) Hinv. unfold storeInv.
  rewrite Hf, Hw, Hh, Hd. exact Hinv.
Qed.

Lemma loadGif_settle_storeInv b h :
  storeInv (state h) → storeInv (state (loadGif_settle b h).1).
Proof.
  intros Hinv. unfold loadGif_settle.
  destruct (tryLoad b) as [m|[[w hgt] v]] eqn:E; simpl.
  - exact Hinv.
  - assert (Hc : composite
                   (match fetched b with Decoded g => g | _ => [] end)
                 = Some (w, hgt, v)).
    { unfold tryLoad in E. destruct (fetched b) as [| | | |[|f fs]];
        try discriminate E.
      destruct (negb (tempCanvas2d b)); [discriminate E|].
      destruct (negb (patchCanvas2d b)); [discriminate E|].
      destruct (composite (f :: fs)) as [r|]; [|discriminate E].
      injection E as ->. reflexivity. }
    apply composite_inv in Hc.
    destruct Hc as ((_ & _ & _ & _ & Hdl & Hfr) & _ & _).
    intros _. simpl. split; assumption.
Qed.

Lemma step_storeInv e h : storeInv (state h) → storeInv (state (step e h)).
Proof.
  intros Hinv. pose proof (step_sameStore e h) as Hsame.
  destruct e as [|b|now| | |id timestamp|render now];
    try (exact (storeInv_sameStore _ _ Hsame Hinv)).
  - change (step LoadGifBegin h) with (loadGif_begin h).
    rewrite loadGif_begin_state. intros Hne. simpl in Hne. contradiction.
  - apply loadGif_settle_storeInv, Hinv.
Qed.

Lemma run_storeInv evs : ∀ h, storeInv (state h) → storeInv (state (run evs h)).
Proof.
  induction evs as [|e evs IH]; intros h Hinv; [exact Hinv|].
  change (run (e :: evs) h) with (run evs (step e h)).
  apply IH, step_storeInv, Hinv.
Qed.

Lemma reachable_storeInv h : reachable h → storeInv (state h).
Proof.
  intros [evs ->]. apply run_storeInv. intros Hne. simpl in Hne.
  contradiction.
Qed.

(** ** Export *)

Lemma processNextFrame_returning s fx : ∀ todo k canvas added,
  (∀ i, todo !! i = frames s !! (k + i)) →
  originalDelays s = delay <$> frames s →
  ∃ more,
    processNextFrame s (returning fx) todo k canvas added
    = Rendered (added ++ more)
    ∧ length more = length todo
    ∧ delayOption <$> more = (λ fr, Some (delay fr)) <$> todo
    ∧ ∀ i fr, todo !! i = Some fr →
        ∃ c, more !! i
             = Some (mkAddFrame (bitmap (fx (drawFrame c fr))) (Some (delay fr))).
Proof.
  induction todo as [|frame rest IH]; intros k canvas added Htodo Hdl.
  - exists []. simpl. rewrite app_nil_r.
    repeat split. intros i fr Hi. discriminate Hi.
  - cbn [processNextFrame].
    change (returning fx (drawFrame canvas frame))
      with (Returned (fx (drawFrame canvas frame))).
    cbv iota.
    assert (Hk : originalDelays s !! k = Some (delay frame)).
    { rewrite Hdl, list_lookup_fmap.
      pose proof (Htodo 0) as H0. rewrite Nat.add_0_r in H0. simpl in H0.
      rewrite <- H0. reflexivity. }
    rewrite Hk.
    destruct (IH (S k) (fx (drawFrame canvas frame))
                (added ++ [mkAddFrame (bitmap (fx (drawFrame canvas frame)))
                                      (Some (delay frame))]))
      as (more & Hrun & Hlen & Hdelays & Hnth).
    { intros i. specialize (Htodo (S i)). simpl in Htodo.
      rewrite Htodo. f_equal. lia. }
    { exact Hdl. }
    exists (mkAddFrame (bitmap (fx (drawFrame canvas frame)))
                       (Some (delay frame)) :: more).
    split; [rewrite Hrun, <- app_assoc; reflexivity|].
    split; [simpl; rewrite Hlen; reflexivity|].
    split; [rewrite !fmap_cons, Hdelays; reflexivity|].
    intros [|i] fr Hi; simpl in Hi.
    + injection Hi as <-. exists canvas. reflexivity.
    + apply (Hnth i fr Hi).
Qed.

Lemma processNextFrame_identity s : ∀ todo k canvas added,
  (∀ i, todo !! i = frames s !! (k + i)) →
  originalDelays s = delay <$> frames s →
  Forall (λ f, wellSized (imageData f)
               ∧ img_width (imageData f) = width s
               ∧ img_height (imageData f) = height s) todo →
  img_width (bitmap canvas) = width s →
  img_height (bitmap canvas) = height s →
  processNextFrame s (returning id) todo k canvas added
  = Rendered (added ++ (untouched <$> todo)).
Proof.
  induction todo as [|frame rest IH];
    intros k canvas added Htodo Hdl Hall Hw Hh.
  - simpl. rewrite app_nil_r. reflexivity.
  - cbn [processNextFrame].
    change (returning id (drawFrame canvas frame))
      with (Returned (drawFrame canvas frame)).
    cbv iota.
    assert (Hk : originalDelays s !! k = Some (delay frame)).
    { rewrite Hdl, list_lookup_fmap.
      pose proof (Htodo 0) as H0. rewrite Nat.add_0_r in H0. simpl in H0.
      rewrite <- H0. reflexivity. }
    rewrite Hk.
    inversion Hall as [|f0 l0 (Hsz & Hfw & Hfh) Hall']; subst f0 l0.
    assert (Hput : bitmap (drawFrame canvas frame) = imageData frame).
    { unfold drawFrame. simpl.
      apply putImageData_full; [exact Hsz|congruence..]. }
    rewrite IH; try assumption; try (rewrite Hput; assumption).
    + rewrite Hput, <- app_assoc. reflexivity.
    + intros i. specialize (Htodo (S i)). simpl in Htodo.
      rewrite Htodo. f_equal. lia.
Qed.

Lemma fitCanvas_size s canvas :
  img_width (bitmap (fitCanvas s canvas)) = width s
  ∧ img_height (bitmap (fitCanvas s canvas)) = height s
  ∧ context2d (fitCanvas s canvas) = context2d canvas.
Proof.
  unfold fitCanvas.
  destruct (img_width (bitmap canvas) =? width s) eqn:Ew;
    destruct (img_height (bitmap canvas) =? height s) eqn:Eh; simpl; auto.
  apply Nat.eqb_eq in Ew, Eh. auto.
Qed.

(** C7: for every state the hook can reach with a non-empty frame list, an
    export whose effect returns on every frame reaches the encoder's final
    call after exactly one [addFrame] per frame, in the order of the frames:
    call [i] carries the pixels the effect left after frame [i] was drawn,
    with the delay of frame [i].  With the effect that changes nothing, the
    calls are exactly the frames with their delays. *)
Theorem export_keeps_order_and_delays
    (h : Hook) (canvas : Canvas) (fx : Canvas → Canvas) :
  reachable h →
  frames (state h) ≠ [] →
  context2d canvas = true →
  let s := state h in
  (∃ added,
     generateGif s true canvas (returning fx) = Rendered added
     ∧ length added = length (frames s)
     ∧ delayOption <$> added = (λ fr, Some (delay fr)) <$> frames s
     ∧ ∀ i fr, frames s !! i = Some fr →
         ∃ c, added !! i
              = Some (mkAddFrame (bitmap (fx (drawFrame c fr)))
                                 (Some (delay fr))))
  ∧ generateGif s true canvas (returning id) = Rendered (untouched <$> frames s).
Proof.
  intros Hreach Hne Hctx s.
  destruct (reachable_storeInv h Hreach Hne) as [Hdl Hall].
  destruct (fitCanvas_size s canvas) as (Hw & Hh & Hc).
  assert (Hlen : (length (frames s) =? 0) = false).
  { apply Nat.eqb_neq. subst s. destruct (frames (state h)); [congruence|].
    simpl. lia. }
  unfold generateGif. rewrite Hlen, Hc, Hctx. simpl.
  split.
  - destruct (processNextFrame_returning s fx (frames s) 0 (fitCanvas s canvas) [])
      as (more & Hrun & Hrest); [reflexivity|exact Hdl|].
    exists more. split; [exact Hrun|exact Hrest].
  - apply (processNextFrame_identity s (frames s) 0 (fitCanvas s canvas) []);
      [reflexivity|exact Hdl|exact Hall|exact Hw|exact Hh].
Qed.

(** C7 on the three-frame store, with delays 100, 200 and 50 ms, exported
    into a 7 x 5 canvas through an effect that wipes the canvas. *)
Lemma export_keeps_order_and_delays_witness :
  let s := state threeFrameHook in
  let canvas := mkCanvas (blank 7 5) true in
  (reachable threeFrameHook ∧ frames s ≠ [] ∧ context2d canvas = true)
  ∧ (∃ added,
       generateGif s true canvas (returning wipe) = Rendered added
       ∧ length added = length (frames s)
       ∧ delayOption <$> added = (λ fr, Some (delay fr)) <$> frames s
       ∧ ∀ i fr, frames s !! i = Some fr →
           ∃ c, added !! i
                = Some (mkAddFrame (bitmap (wipe (drawFrame c fr)))
                                   (Some (delay fr))))
  ∧ generateGif s true canvas (returning id) = Rendered (untouched <$> frames s).
Proof.
  intros s canvas.
  assert (Hreach : reachable threeFrameHook).
  { exists [LoadGifBegin; LoadGifSettle (working threeFrameGif)]. reflexivity. }
  assert (Hne : frames s ≠ []) by (vm_compute; intros H; discriminate H).
  assert (Hctx : context2d canvas = true) by reflexivity.
  split; [auto|].
  exact (export_keeps_order_and_delays threeFrameHook canvas wipe
           Hreach Hne Hctx).
Defined.

(** ** Further properties of the compositor and of loading *)

Lemma processFrames_is_Some w h todo : ∀ prev v,
  is_Some (processFrames w h prev todo v)
  ↔ Forall positiveDims todo ∧ (todo = [] ∨ (0 < w ∧ 0 < h)).
Proof.
  induction todo as [|frame rest IH]; intros prev v; simpl.
  - split; [intros _; split; [constructor|left; reflexivity]|eauto].
  - split.
    + destruct (processFrame w h prev frame v) as [v1|] eqn:E;
        [|intros [x Hx]; discriminate Hx].
      intros Hrest. apply IH in Hrest. destruct Hrest as [Hall _].
      apply processFrame_Some in E. cbv zeta in E.
      destruct E as (Hpw & Hph & Hw & Hh & _).
      split; [constructor; [split; assumption|exact Hall]|right; auto].
    + intros [Hall [Hnil|[Hw Hh]]]; [discriminate Hnil|].
      inversion Hall as [|f0 l0 [Hpw Hph] Hall']; subst f0 l0.
      destruct (processFrame_is_Some w h prev frame v Hpw Hph Hw Hh)
        as [v1 ->].
      apply IH. split; [exact Hall'|right; auto].
Qed.

(** A pass goes through exactly when there is a patch and no patch has an
    empty side. *)
Lemma composite_is_Some gifFrames :
  is_Some (composite gifFrames)
  ↔ gifFrames ≠ [] ∧ Forall positiveDims gifFrames.
Proof.
  unfold composite. destruct gifFrames as [|first rest].
  - split; [intros [x Hx]; discriminate Hx|intros [Hne _]; contradiction].
  - pose proof (processFrames_is_Some (Gifuct.width (Gifuct.dims first))
                  (Gifuct.height (Gifuct.dims first)) (first :: rest) None
                  (Compose.start (Gifuct.width (Gifuct.dims first))
                     (Gifuct.height (Gifuct.dims first)))) as Hiff.
    destruct (processFrames _ _ None (first :: rest) _) as [v|].
    + split; [|eauto]. intros _. split; [discriminate|]. apply Hiff. eauto.
    + split; [intros [x Hx]; discriminate Hx|].
      intros [_ Hall]. exfalso.
      assert (Hs : is_Some (@None Compose.Vars)).
      { apply Hiff. split; [exact Hall|right].
        inversion Hall as [|f0 l0 [Hpw Hph] _]. auto. }
      destruct Hs as [x Hx]. discriminate Hx.
Qed.

Lemma processFrames_delays w h todo : ∀ prev v v',
  processFrames w h prev todo v = Some v' →
  Compose.originalDelays v'
  = Compose.originalDelays v
    ++ ((λ f, delayOrDefault (Gifuct.delay f)) <$> todo).
Proof.
  induction todo as [|frame rest IH]; intros prev v v' Hrun; simpl in Hrun.
  - injection Hrun as <-. rewrite app_nil_r. reflexivity.
  - destruct (processFrame w h prev frame v) as [v1|] eqn:E; [|discriminate].
    rewrite (IH _ _ _ Hrun).
    apply processFrame_Some in E. cbv zeta in E.
    destruct E as (_ & _ & _ & _ & ->). simpl.
    rewrite <- app_assoc. reflexivity.
Qed.

Lemma tryLoad_inr b w hgt v :
  tryLoad b = inr (w, hgt, v) →
  ∃ gifFrames,
    fetched b = Decoded gifFrames ∧ tempCanvas2d b = true
    ∧ patchCanvas2d b = true ∧ composite gifFrames = Some (w, hgt, v).
Proof.
  unfold tryLoad. destruct (fetched b) as [| | | |[|f fs]]; try discriminate.
  destruct (tempCanvas2d b); cbn [negb]; [|discriminate].
  destruct (patchCanvas2d b); cbn [negb]; [|discriminate].
  destruct (composite (f :: fs)) as [r|] eqn:E; [|discriminate].
  intros H. injection H as ->. eauto.
Qed.

(** X1.  [loadGif] resolves to [true] exactly when the decoder returned at
    least one patch, both canvases gave a 2D context, and no patch has a
    zero width or height. *)
Theorem loadGif_succeeds_iff (b : Browser) (h : Hook) :
  (loadGif b h).2 = true
  ↔ ∃ gifFrames,
      fetched b = Decoded gifFrames ∧ gifFrames ≠ []
      ∧ tempCanvas2d b = true ∧ patchCanvas2d b = true
      ∧ Forall positiveDims gifFrames.
Proof.
  unfold loadGif, loadGif_settle. split.
  - destruct (tryLoad b) as [m|[[w hgt] v]] eqn:E; simpl; [discriminate|].
    intros _. destruct (tryLoad_inr b w hgt v E) as (g & Hf & Ht & Hp & Hc).
    exists g. assert (Hs : is_Some (composite g)) by eauto.
    apply composite_is_Some in Hs. destruct Hs as [Hne Hall]. auto.
  - intros (g & Hf & Hne & Ht & Hp & Hall).
    assert (Hs : is_Some (composite g)) by (apply composite_is_Some; auto).
    destruct Hs as [[[w hgt] v] Hc].
    unfold tryLoad. rewrite Hf, Ht, Hp. simpl.
    destruct g as [|f fs]; [contradiction|]. rewrite Hc. reflexivity.
Qed.

(** X2.  When a load settles well -- whatever happened since it began --
    it installs one frame and one delay per patch, in order; each delay is
    the patch's own, or 100 ms where the patch reports 0, and so is never
    0.  The canvas size is that of the first patch; the cursor is on frame
    0, [isPlaying] and [isLoading] are false and no error is set.  The
    settling touches neither [animationRef], the pending callbacks, nor the
    two time refs: a playback started while the load was in flight goes on
    ticking. *)
Theorem loadGif_installs_frames (b : Browser) (h : Hook) :
  (loadGif_settle b h).2 = true →
  ∃ first rest,
    fetched b = Decoded (first :: rest)
    ∧ let h' := (loadGif_settle b h).1 in
      let s' := state h' in
      length (frames s') = length (first :: rest)
      ∧ delay <$> frames s'
        = (λ f, delayOrDefault (Gifuct.delay f)) <$> (first :: rest)
      ∧ originalDelays s' = delay <$> frames s'
      ∧ Forall (λ d, d ≠ 0%Z) (originalDelays s')
      ∧ width s' = Gifuct.width (Gifuct.dims first)
      ∧ height s' = Gifuct.height (Gifuct.dims first)
      ∧ currentFrameIndex s' = 0 ∧ isPlaying s' = false
      ∧ isLoading s' = false ∧ error s' = None
      ∧ animationRef h' = animationRef h
      ∧ rafCallbacks h' = rafCallbacks h
      ∧ frameTimeOffsetRef h' = frameTimeOffsetRef h
      ∧ lastTimeRef h' = lastTimeRef h.
Proof.
  unfold loadGif_settle.
  destruct (tryLoad b) as [m|[[w hgt] v]] eqn:E; simpl; [discriminate|].
  intros _. destruct (tryLoad_inr b w hgt v E) as (g & Hf & _ & _ & Hc).
  destruct g as [|first rest]; [discriminate Hc|].
  exists first, rest. split; [exact Hf|].
  destruct (composite_inv _ _ _ _ Hc) as ((_ & _ & _ & _ & Hdl & _) & Hlen & _).
  unfold composite in Hc.
  destruct (processFrames _ _ None (first :: rest) _) as [v1|] eqn:Hrun;
    [|discriminate].
  injection Hc as <- <- <-.
  pose proof (processFrames_delays _ _ _ _ _ _ Hrun) as Hds.
  simpl Compose.originalDelays in Hds. rewrite app_nil_l in Hds.
  split; [exact Hlen|].
  split; [rewrite <- Hdl; exact Hds|].
  split; [exact Hdl|].
  split.
  { rewrite Hds. apply Forall_fmap, Forall_forall. intros f _. simpl.
    unfold delayOrDefault. destruct (Gifuct.delay f =? 0)%Z eqn:E0;
      [discriminate|]. apply Z.eqb_neq, E0. }
  repeat split; reflexivity.
Qed.

(** X3.  Every frame a successful load installs is a full bitmap of the
    store's width and height, and each of its pixels is either fully
    transparent or fully opaque: the compositor never blends. *)
Theorem loaded_frames_are_full_and_crisp (b : Browser) (h : Hook) :
  (loadGif b h).2 = true →
  let s' := state (loadGif b h).1 in
  Forall (λ f, wellSized (imageData f)
               ∧ img_width (imageData f) = width s'
               ∧ img_height (imageData f) = height s'
               ∧ allBinary (imageData f))
         (frames s').
Proof.
  unfold loadGif, loadGif_settle.
  destruct (tryLoad b) as [m|[[w hgt] v]] eqn:E; simpl; [discriminate|].
  intros _. destruct (tryLoad_inr b w hgt v E) as (g & _ & _ & _ & Hc).
  destruct (composite_inv _ _ _ _ Hc) as ((_ & _ & _ & _ & _ & Hfr) & _ & _).
  destruct (composite_crisp _ _ _ _ Hc) as (_ & _ & _ & Hcr).
  rewrite Forall_forall in Hfr, Hcr. apply Forall_forall. intros f Hf.
  destruct (Hfr f Hf) as (H1 & H2 & H3). auto using Hcr.
Qed.

(** X2 on the three-frame GIF settling while a playback of an earlier
    three-frame store, started during the load, is half way through a
    frame. *)
Lemma loadGif_installs_frames_witness :
  let b := working threeFrameGif in
  let h :=
    run [LoadGifBegin; PlayFrom (state threeFrameHook) 0;
         FrameCallback 1%positive 50] threeFrameHook in
  (loadGif_settle b h).2 = true
  ∧ ∃ first rest,
      fetched b = Decoded (first :: rest)
      ∧ let h' := (loadGif_settle b h).1 in
        let s' := state h' in
        length (frames s') = length (first :: rest)
        ∧ delay <$> frames s'
          = (λ f, delayOrDefault (Gifuct.delay f)) <$> (first :: rest)
        ∧ originalDelays s' = delay <$> frames s'
        ∧ Forall (λ d, d ≠ 0%Z) (originalDelays s')
        ∧ width s' = Gifuct.width (Gifuct.dims first)
        ∧ height s' = Gifuct.height (Gifuct.dims first)
        ∧ currentFrameIndex s' = 0 ∧ isPlaying s' = false
        ∧ isLoading s' = false ∧ error s' = None
        ∧ animationRef h' = animationRef h
        ∧ rafCallbacks h' = rafCallbacks h
        ∧ frameTimeOffsetRef h' = frameTimeOffsetRef h
        ∧ lastTimeRef h' = lastTimeRef h.
Proof.
  intros b h.
  assert (Hok : (loadGif_settle b h).2 = true) by reflexivity.
  split; [exact Hok|].
  exact (loadGif_installs_frames b h Hok).
Defined.

(** X3 on the three-frame GIF loaded into a fresh hook. *)
Lemma loaded_frames_are_full_and_crisp_witness :
  let b := working threeFrameGif in
  let s' := state (loadGif b initialHook).1 in
  (loadGif b initialHook).2 = true
  ∧ Forall (λ f, wellSized (imageData f)
                 ∧ img_width (imageData f) = width s'
                 ∧ img_height (imageData f) = height s'
                 ∧ allBinary (imageData f))
           (frames s').
Proof.
  intros b s'.
  assert (Hok : (loadGif b initialHook).2 = true) by reflexivity.
  split; [exact Hok|].
  exact (loaded_frames_are_full_and_crisp b initialHook Hok).
Defined.

Lemma processFrames_snoc w h p done : ∀ prev v v',
  processFrames w h prev (done ++ [p]) v = Some v' →
  ∃ v1 prev',
    processFrames w h prev done v = Some v1
    ∧ processFrame w h prev' p v1 = Some v'.
Proof.
  induction done as [|frame rest IH]; intros prev v v' Hrun; simpl in Hrun.
  - destruct (processFrame w h prev p v) as [v1|] eqn:E; [|discriminate].
    injection Hrun as <-. exists v, prev. split; [reflexivity|exact E].
  - simpl. destruct (processFrame w h prev frame v) as [v1|]; [|discriminate].
    apply (IH _ _ _ Hrun).
Qed.

Lemma getImageData_same c :
  wellSized c → getImageData c (img_width c) (img_height c) = c.
Proof. intros Hsz. unfold getImageData. apply tabulate_getPixel, Hsz. Qed.

Lemma snapshotInv_step w h prev frame v v' :
  loopInv w h v → processFrame w h prev frame v = Some v' → snapshotInv v'.
Proof.
  intros (Hcw & Hch & _) Hstep.
  apply processFrame_Some in Hstep. cbv zeta in Hstep.
  destruct Hstep as (_ & _ & _ & _ & ->).
  set (drawn := drawImage _ _ _ _).
  assert (Hsz : wellSized drawn) by apply wellSized_tabulate.
  assert (Hw : img_width drawn = w)
    by (unfold drawn; simpl; rewrite applyDisposal_width; exact Hcw).
  assert (Hh : img_height drawn = h)
    by (unfold drawn; simpl; rewrite applyDisposal_height; exact Hch).
  assert (Hcopy : getImageData drawn w h = drawn)
    by (rewrite <- Hw, <- Hh; apply getImageData_same, Hsz).
  unfold snapshotInv. simpl. rewrite Hcopy.
  split; [exact Hsz|]. split.
  - intros img H. injection H as <-. reflexivity.
  - intros fs f Hf. apply app_inj_tail in Hf. destruct Hf as [_ <-].
    reflexivity.
Qed.

(** X4.  Whatever the previous patch's disposal code, unless it is 2, the
    canvas on which the next patch is drawn is exactly the previous frame:
    codes 0, 1 and 3 (and any unassigned code) all leave it in place. *)
Theorem disposal_other_than_2_keeps_previous_frame
    (done : list Gifuct.ParsedFrame) (p : Gifuct.ParsedFrame) (w h : nat)
    (v : Compose.Vars) :
  processFrames w h None (done ++ [p]) (Compose.start w h) = Some v →
  Gifuct.disposalType p ≠ 2 →
  ∃ fs f,
    Compose.processedFrames v = fs ++ [f]
    ∧ applyDisposal w h (Some p) (Compose.previousImageData v) (Compose.ctx v)
      = imageData f.
Proof.
  intros Hrun Hd.
  destruct (processFrames_snoc _ _ _ _ _ _ _ Hrun) as (v1 & prev' & E1 & E2).
  rename v into v2.
  destruct (loopInv_steps _ _ _ _ _ _ (loopInv_start w h) E1) as [Hinv _].
  destruct (snapshotInv_step _ _ _ _ _ _ Hinv E2) as (Hsz & Hprev & Hlast).
  pose proof E2 as E3. apply processFrame_Some in E3. cbv zeta in E3.
  destruct E3 as (_ & _ & _ & _ & Hv2).
  exists (Compose.processedFrames v1),
    (mkFrame (getImageData (Compose.ctx v2) w h)
             (delayOrDefault (Gifuct.delay p))).
  assert (Hfr : Compose.processedFrames v2
                = Compose.processedFrames v1
                  ++ [mkFrame (getImageData (Compose.ctx v2) w h)
                              (delayOrDefault (Gifuct.delay p))])
    by (rewrite Hv2; reflexivity).
  split; [exact Hfr|].
  rewrite (Hlast _ _ Hfr).
  unfold applyDisposal.
  destruct (Gifuct.disposalType p =? 2) eqn:E; [apply Nat.eqb_eq in E; contradiction|].
  destruct (Compose.previousImageData v2) as [img|] eqn:Ep; [|reflexivity].
  destruct (negb (Gifuct.disposalType p =? 3)); [|reflexivity].
  rewrite (Hprev img eq_refl). apply putImageData_full; [exact Hsz|reflexivity..].
Qed.

(** X4 after the full red frame, whose disposal code is 0. *)
Lemma disposal_other_than_2_keeps_previous_frame_witness :
  let v := afterPatches 2 1 [redPair] in
  (processFrames 2 1 None ([] ++ [redPair]) (Compose.start 2 1) = Some v
   ∧ Gifuct.disposalType redPair ≠ 2)
  ∧ ∃ fs f,
      Compose.processedFrames v = fs ++ [f]
      ∧ applyDisposal 2 1 (Some redPair) (Compose.previousImageData v)
                      (Compose.ctx v)
        = imageData f.
Proof.
  intros v.
  assert (Hrun : processFrames 2 1 None ([] ++ [redPair]) (Compose.start 2 1)
                 = Some v) by (vm_compute; reflexivity).
  assert (Hd : Gifuct.disposalType redPair ≠ 2)
    by (simpl; intros H; discriminate H).
  split; [split; assumption|].
  exact (disposal_other_than_2_keeps_previous_frame [] redPair 2 1 v Hrun Hd).
Defined.

(** X5.  The patch canvas is never cleared: at a position outside the
    current patch, what earlier patches left on the patch canvas is
    composited onto the frame, shifted by the current patch's offset. *)
Theorem stale_patch_pixels_are_redrawn
    (w h : nat) (prev : option Gifuct.ParsedFrame) (frame : Gifuct.ParsedFrame)
    (v v' : Compose.Vars) (x y : nat) :
  loopInv w h v →
  processFrame w h prev frame v = Some v' →
  let d := Gifuct.dims frame in
  ¬ (x < Gifuct.width d ∧ y < Gifuct.height d) →
  Gifuct.left d + x < w → Gifuct.top d + y < h →
  let before :=
    applyDisposal w h prev (Compose.previousImageData v) (Compose.ctx v) in
  ∃ fr, Compose.processedFrames v' = Compose.processedFrames v ++ [fr]
        ∧ getPixel (imageData fr) (Gifuct.left d + x) (Gifuct.top d + y)
          = sourceOver (getPixel (Compose.patchCtx v) x y)
              (getPixel before (Gifuct.left d + x) (Gifuct.top d + y)).
Proof.
  intros (Hcw & Hch & Hpw & Hph & _) Hstep d Hout HX HY before.
  apply processFrame_Some in Hstep. cbv zeta in Hstep.
  destruct Hstep as (_ & _ & _ & _ & ->). simpl.
  eexists. split; [reflexivity|]. simpl.
  rewrite getPixel_getImageData by assumption.
  fold d. fold before.
  rewrite getPixel_drawImage
    by (unfold before; rewrite ?applyDisposal_width, ?applyDisposal_height; lia).
  assert (Hrect : inRect (Gifuct.left d) (Gifuct.top d)
            (img_width (stampPatch (Compose.patchCtx v)
               (mkImageData (Gifuct.width d) (Gifuct.height d) (patchData frame))))
            (img_height (stampPatch (Compose.patchCtx v)
               (mkImageData (Gifuct.width d) (Gifuct.height d) (patchData frame))))
            (Gifuct.left d + x) (Gifuct.top d + y) = true).
  { apply inRect_true. simpl. lia. }
  rewrite Hrect.
  replace (Gifuct.left d + x - Gifuct.left d) with x by lia.
  replace (Gifuct.top d + y - Gifuct.top d) with y by lia.
  unfold stampPatch. rewrite getPixel_putImageData by lia.
  simpl img_width. simpl img_height.
  assert (Hrect0 : inRect 0 0 (Gifuct.width d) (Gifuct.height d) x y = false).
  { destruct (inRect 0 0 _ _ x y) eqn:E; [|reflexivity].
    apply inRect_true in E. exfalso. apply Hout. lia. }
  rewrite Hrect0. reflexivity.
Qed.

(** X5 after a red 2 x 1 frame and a one-pixel patch with disposal code 2:
    the canvas is cleared and the next patch covers (0, 0) only, yet the
    frame is red at (1, 0). *)
Lemma stale_patch_pixels_are_redrawn_witness :
  let v := afterPatches 2 1 [redPair; bluePoint] in
  let v' := afterPatches 2 1 [redPair; bluePoint; seeThrough] in
  (loopInv 2 1 v
   ∧ processFrame 2 1 (Some bluePoint) seeThrough v = Some v'
   ∧ ¬ (1 < 1 ∧ 0 < 1) ∧ 0 + 1 < 2 ∧ 0 + 0 < 1)
  ∧ ∃ fr, Compose.processedFrames v' = Compose.processedFrames v ++ [fr]
          ∧ getPixel (imageData fr) 1 0 = opaqueRed.
Proof.
  intros v v'.
  assert (Hinv : loopInv 2 1 v).
  { unfold loopInv. vm_compute. repeat split. repeat constructor. }
  assert (Hstep : processFrame 2 1 (Some bluePoint) seeThrough v = Some v')
    by (vm_compute; reflexivity).
  assert (Hout : ¬ (1 < 1 ∧ 0 < 1)) by lia.
  split; [repeat (split; [first [assumption|lia]|]); first [assumption|lia]|].
  destruct (stale_patch_pixels_are_redrawn 2 1 (Some bluePoint) seeThrough
              v v' 1 0 Hinv Hstep Hout ltac:(simpl; lia) ltac:(simpl; lia))
    as (fr & Hfr & Hpix).
  exists fr. split; [exact Hfr|].
  simpl in Hpix. rewrite Hpix. vm_compute. reflexivity.
Defined.

(** ** Further properties of rendering and export *)

(** X6.  On every state the hook can reach, with the cursor on a frame and a
    2D context on the target, [renderToCanvas] leaves the target holding
    exactly that frame -- resized to the store's size if need be -- and
    returns [true]; an effect is then run on that canvas, and the result is
    [true] when it returns and [false] when it throws. *)
Theorem renderToCanvas_shows_current_frame
    (h : Hook) (canvas : Canvas) (fr : Frame) (fx : Effects) :
  reachable h →
  frames (state h) !! currentFrameIndex (state h) = Some fr →
  context2d canvas = true →
  let shown := mkCanvas (imageData fr) true in
  img_width (bitmap shown) = width (state h)
  ∧ img_height (bitmap shown) = height (state h)
  ∧ renderToCanvas (state h) canvas None = (true, shown)
  ∧ renderToCanvas (state h) canvas (Some fx)
    = match fx shown with
      | Returned c => (true, c)
      | Threw c => (false, c)
      end.
Proof.
  intros Hreach Hfr Hctx shown.
  assert (Hne : frames (state h) ≠ []).
  { intros E. rewrite E in Hfr. discriminate Hfr. }
  destruct (reachable_storeInv h Hreach Hne) as [_ Hall].
  destruct (Forall_lookup_1 _ _ _ _ Hall Hfr) as (Hsz & Hw & Hh).
  destruct (fitCanvas_size (state h) canvas) as (Hfw & Hfh & Hfc).
  assert (Hdraw : drawFrame (fitCanvas (state h) canvas) fr = shown).
  { unfold drawFrame, shown. rewrite Hfc, Hctx. f_equal.
    apply putImageData_full; [exact Hsz|congruence..]. }
  assert (Hguard : (length (frames (state h)) =? 0)
                   || (length (frames (state h)) <=? currentFrameIndex (state h))
                   = false).
  { apply lookup_lt_Some in Hfr. apply orb_false_iff. split.
    - apply Nat.eqb_neq. lia.
    - apply Nat.leb_gt. exact Hfr. }
  split; [exact Hw|]. split; [exact Hh|].
  unfold renderToCanvas. rewrite Hguard, Hctx, Hfr, Hdraw. simpl.
  split; reflexivity.
Qed.

(** X6 on the three-frame store, rendered into a 7 x 5 canvas. *)
Lemma renderToCanvas_shows_current_frame_witness :
  let fr := mkFrame (tabulate 1 1 (λ _ _, opaqueRed)) 100 in
  let canvas := mkCanvas (blank 7 5) true in
  let shown := mkCanvas (imageData fr) true in
  (reachable threeFrameHook
   ∧ frames (state threeFrameHook) !! currentFrameIndex (state threeFrameHook)
     = Some fr
   ∧ context2d canvas = true)
  ∧ img_width (bitmap shown) = width (state threeFrameHook)
  ∧ img_height (bitmap shown) = height (state threeFrameHook)
  ∧ renderToCanvas (state threeFrameHook) canvas None = (true, shown)
  ∧ renderToCanvas (state threeFrameHook) canvas (Some (returning wipe))
    = match returning wipe shown with
      | Returned c => (true, c)
      | Threw c => (false, c)
      end.
Proof.
  intros fr canvas shown.
  assert (Hreach : reachable threeFrameHook).
  { exists [LoadGifBegin; LoadGifSettle (working threeFrameGif)]. reflexivity. }
  assert (Hfr : frames (state threeFrameHook)
                  !! currentFrameIndex (state threeFrameHook) = Some fr)
    by reflexivity.
  assert (Hctx : context2d canvas = true) by reflexivity.
  split; [auto|].
  exact (renderToCanvas_shows_current_frame threeFrameHook canvas fr
           (returning wipe) Hreach Hfr Hctx).
Defined.

Lemma processNextFrame_outcome s fx : ∀ todo k canvas added,
  length added = k →
  match processNextFrame s fx todo k canvas added with
  | Rendered a => length a = k + length todo
  | Unsettled a => 0 < length a < k + length todo
  | Rejected why =>
      why = EffectsThrew ∧ k = 0
      ∧ ∃ fr rest c, todo = fr :: rest ∧ fx (drawFrame canvas fr) = Threw c
  end.
Proof.
  induction todo as [|frame rest IH]; intros k canvas added Hk; simpl.
  - lia.
  - destruct (fx (drawFrame canvas frame)) as [c|c] eqn:E.
    + specialize (IH (S k) c
                     (added ++ [mkAddFrame (bitmap c) (originalDelays s !! k)])).
      rewrite length_app in IH. simpl in IH. specialize (IH ltac:(lia)).
      destruct (processNextFrame s fx rest (S k) c _) as [why|a|a].
      * destruct IH as (_ & Hk0 & _). discriminate Hk0.
      * lia.
      * lia.
    + destruct k as [|k]; simpl.
      * split; [reflexivity|]. split; [reflexivity|]. eauto.
      * lia.
Qed.

(** X7.  Whatever the effect does, an export ends in one of three ways: it
    reaches the encoder's final call after exactly one [addFrame] per stored
    frame; it is rejected before any frame was added (no frames, encoder not
    loaded, no 2D context, or the effect threw on the first frame); or, when
    the effect throws on a later frame, it is left unsettled with at least
    one and fewer than all frames added. *)
Theorem generateGif_outcomes
    (s : AnimatedGifState) (encoderImported : bool) (canvas : Canvas)
    (fx : Effects) :
  match generateGif s encoderImported canvas fx with
  | Rendered added => length added = length (frames s) ∧ frames s ≠ []
  | Unsettled added => 0 < length added < length (frames s)
  | Rejected NoFramesAvailable => frames s = []
  | Rejected ImportFailed => encoderImported = false
  | Rejected NoCanvasContext => context2d canvas = false
  | Rejected EffectsThrew =>
      ∃ fr rest c,
        frames s = fr :: rest
        ∧ fx (drawFrame (fitCanvas s canvas) fr) = Threw c
  end.
Proof.
  unfold generateGif.
  destruct (frames s) as [|fr0 rest0] eqn:Ef; [reflexivity|]. simpl.
  destruct encoderImported; simpl; [|reflexivity].
  destruct (fitCanvas_size s canvas) as (_ & _ & Hc). rewrite Hc.
  destruct (context2d canvas); simpl; [|reflexivity].
  pose proof (processNextFrame_outcome s fx (fr0 :: rest0) 0
                (fitCanvas s canvas) [] eq_refl) as Hout.
  simpl in Hout.
  destruct (fx (drawFrame (fitCanvas s canvas) fr0)) as [c|c] eqn:E.
  - destruct (processNextFrame s fx rest0 1 c _) as [why|a|a].
    + exfalso. destruct Hout as (_ & _ & fr & rest & c' & Heq & Hthrow).
      injection Heq as <- <-. rewrite E in Hthrow. discriminate Hthrow.
    + exact Hout.
    + split; [exact Hout|discriminate].
  - simpl in Hout. eauto.
Qed.

(** ** Further properties of playback *)

Lemma cancelPending_idem h : cancelPending (cancelPending h) = cancelPending h.
Proof.
  unfold cancelPending at 1. rewrite cancelPending_ref. reflexivity.
Qed.

(** X9.  Stopping is idempotent and [reset] absorbs [pause]: pausing twice
    is pausing once, resetting twice is resetting once, and [pause] before
    or after [reset] adds nothing to it. *)
Theorem stopping_composes (h : Hook) :
  pause (pause h) = pause h
  ∧ reset (reset h) = reset h
  ∧ reset (pause h) = reset h
  ∧ pause (reset h) = reset h.
Proof.
  assert (Hnone : ∀ f, cancelPending (setState f (cancelPending h))
                       = setState f (cancelPending h)).
  { intros f. unfold cancelPending at 1. simpl.
    rewrite cancelPending_ref. reflexivity. }
  unfold pause, reset. rewrite !Hnone. repeat split; reflexivity.
Qed.

(** *** One pending tick *)

Lemma singlePending_queueInv h : singlePending h → queueInv h.
Proof.
  intros [E|(id & cl & E & Href)] e He; rewrite E in He.
  - inversion He.
  - apply list_elem_of_singleton in He. subst e. exact Href.
Qed.

Lemma animate_singlePending cl timestamp h :
  rafCallbacks h = [] → singlePending (animate cl timestamp h).
Proof.
  intros E. unfold animate.
  destruct (animationRef h); [|left; exact E].
  destruct (closedFrames cl !! localFrameIndex cl) as [currentFrame|];
    [|left; exact E].
  simpl. destruct (delay currentFrame <=? _)%Z; right; simpl; rewrite E;
    simpl; eauto.
Qed.

Lemma step_singlePending e h : singlePending h → singlePending (step e h).
Proof.
  intros Hinv. pose proof (singlePending_queueInv h Hinv) as Hq.
  assert (Hplay : ∀ render now, singlePending (playFrom render now h)).
  { intros render now. unfold playFrom.
    destruct ((length (frames render) =? 0) || isPlaying render);
      [exact Hinv|].
    right. simpl. rewrite (cancelPending_queue h Hq). simpl. eauto. }
  destruct e as [|b|now| | |id timestamp|render now]; simpl;
    try apply Hplay.
  - left. unfold loadGif_begin. simpl. apply cancelPending_queue, Hq.
  - unfold loadGif_settle.
    destruct (tryLoad b) as [m|[[w hgt] v]]; simpl; exact Hinv.
  - left. unfold pause. simpl. apply cancelPending_queue, Hq.
  - left. unfold reset. simpl. apply cancelPending_queue, Hq.
  - unfold runFrameCallback.
    destruct (list_find _ _) as [[i [i' cl]]|] eqn:Ef; [|exact Hinv].
    apply list_find_Some in Ef. destruct Ef as (Hi & Hid & _). simpl in Hid.
    subst i'.
    apply animate_singlePending. unfold cancelAnimationFrame. simpl.
    apply filter_none. intros e He Hne. apply Hne.
    pose proof (Hq e He) as H1.
    pose proof (Hq (id, cl) (list_elem_of_lookup_2 _ _ _ Hi)) as H2.
    simpl in H2. congruence.
Qed.

Lemma run_singlePending evs : ∀ h, singlePending h → singlePending (run evs h).
Proof.
  induction evs as [|e evs IH]; intros h Hinv; [exact Hinv|].
  change (run (e :: evs) h) with (run evs (step e h)).
  apply IH, step_singlePending, Hinv.
Qed.

(** X11.  Along every run of the hook at most one tick is pending, under
    the handle [animationRef] holds; [pause], [reset], the start of a load
    and unmounting each leave none. *)
Theorem at_most_one_pending_tick (evs : list Event) :
  let h := run evs initialHook in
  singlePending h
  ∧ length (rafCallbacks h) ≤ 1
  ∧ rafCallbacks (pause h) = []
  ∧ rafCallbacks (reset h) = []
  ∧ rafCallbacks (loadGif_begin h) = []
  ∧ rafCallbacks (unmount h) = [].
Proof.
  intros h.
  assert (Hs : singlePending h)
    by (apply run_singlePending; left; reflexivity).
  pose proof (singlePending_queueInv h Hs) as Hq.
  split; [exact Hs|].
  split; [destruct Hs as [E|(id & cl & E & _)]; rewrite E; simpl; lia|].
  split; [unfold pause; simpl; apply cancelPending_queue, Hq|].
  split; [unfold reset; simpl; apply cancelPending_queue, Hq|].
  split; [unfold loadGif_begin; simpl; apply cancelPending_queue, Hq|].
  unfold unmount. destruct Hs as [E|(id & cl & E & Href)].
  - destruct (animationRef h); [|exact E]. simpl. rewrite E. reflexivity.
  - rewrite Href. simpl. rewrite E. apply filter_none.
    intros e He Hne. apply list_elem_of_singleton in He. subst e.
    apply Hne. reflexivity.
Qed.

Lemma run_app evs1 evs2 h : run (evs1 ++ evs2) h = run evs2 (run evs1 h).
Proof. unfold run. apply foldl_app. Qed.

Lemma run_queueInv evs : ∀ h, queueInv h → queueInv (run evs h).
Proof.
  induction evs as [|e evs IH]; intros h Hinv; [exact Hinv|].
  change (run (e :: evs) h) with (run evs (step e h)).
  apply IH, step_queueInv, Hinv.
Qed.

Lemma animate_cursorInv cl timestamp h :
  cursorInv h →
  closedFrames cl = frames (state h) →
  localFrameIndex cl < length (frames (state h)) →
  cursorInv (animate cl timestamp h).
Proof.
  intros [Hcur Hq] Hcl Hl. unfold animate.
  destruct (animationRef h); [|split; assumption].
  destruct (closedFrames cl !! localFrameIndex cl) as [currentFrame|];
    [|split; assumption].
  simpl. destruct (delay currentFrame <=? _)%Z; simpl.
  - assert (Hn : (localFrameIndex cl + 1) mod length (closedFrames cl)
                 < length (frames (state h))).
    { rewrite Hcl. apply Nat.mod_upper_bound. lia. }
    split; simpl; [right; exact Hn|].
    intros e He. apply elem_of_app in He. destruct He as [He|He].
    + apply (Hq e He).
    + apply list_elem_of_singleton in He. subst e. simpl. auto.
  - split; simpl; [exact Hcur|].
    intros e He. apply elem_of_app in He. destruct He as [He|He].
    + apply (Hq e He).
    + apply list_elem_of_singleton in He. subst e. simpl. auto.
Qed.

(** *** [play] and the render it comes from *)

Lemma cancelPending_next h : rafNextHandle (cancelPending h) = rafNextHandle h.
Proof. unfold cancelPending. destruct (animationRef h); reflexivity. Qed.

Lemma playFrom_starts render now h :
  frames render ≠ [] → isPlaying render = false → queueInv h →
  playFrom render now h
  = mkHook (withPlaying true (state h)) (Some (rafNextHandle h)) now 0
      [(rafNextHandle h, mkClosure (frames render) (currentFrameIndex render))]
      (Pos.succ (rafNextHandle h)).
Proof.
  intros Hne Hstop Hq. unfold playFrom.
  assert (E : (length (frames render) =? 0) || isPlaying render = false).
  { rewrite Hstop, orb_false_r. apply Nat.eqb_neq.
    destruct (frames render); [contradiction|simpl; lia]. }
  rewrite E. simpl.
  rewrite (cancelPending_queue h Hq), cancelPending_next, cancelPending_state.
  reflexivity.
Qed.

(** X8.  [play] reads the state of the render that created it.  Called on a
    render that saw frames and [isPlaying = false], it schedules one tick
    for a closure over that render's frames and cursor and sets
    [isPlaying].  The [play] of the next render, which sees
    [isPlaying = true], then changes nothing, whatever the clock reads; but
    the same stale [play] called again does not see the flag: it cancels
    the tick, schedules a new one under the next handle and restarts the
    carry-over from 0 at the new clock reading. *)
Theorem play_twice (evs : list Event) (render : AnimatedGifState)
    (now now' : Z) :
  let h := run evs initialHook in
  let h1 := playFrom render now h in
  let cl := mkClosure (frames render) (currentFrameIndex render) in
  frames render ≠ [] →
  isPlaying render = false →
  (isPlaying (state h1) = true
   ∧ animationRef h1 = Some (rafNextHandle h)
   ∧ rafCallbacks h1 = [(rafNextHandle h, cl)]
   ∧ lastTimeRef h1 = now ∧ frameTimeOffsetRef h1 = 0%Z)
  ∧ playFrom (state h1) now' h1 = h1
  ∧ play now' h1 = h1
  ∧ (let h2 := playFrom render now' h1 in
     state h2 = state h1
     ∧ animationRef h2 = Some (Pos.succ (rafNextHandle h))
     ∧ rafCallbacks h2 = [(Pos.succ (rafNextHandle h), cl)]
     ∧ lastTimeRef h2 = now' ∧ frameTimeOffsetRef h2 = 0%Z).
Proof.
  intros h h1 cl Hne Hstop.
  assert (Hq : queueInv h) by (apply reachable_queueInv; exists evs; reflexivity).
  assert (Hq1 : queueInv h1) by (apply playFrom_queueInv, Hq).
  assert (E1 : h1 = mkHook (withPlaying true (state h)) (Some (rafNextHandle h))
                      now 0 [(rafNextHandle h, cl)] (Pos.succ (rafNextHandle h)))
    by (apply playFrom_starts; assumption).
  assert (Hp : isPlaying (state h1) = true) by (rewrite E1; reflexivity).
  split; [rewrite E1; repeat split|].
  split; [unfold playFrom; rewrite Hp, orb_true_r; reflexivity|].
  split; [unfold play, playFrom; rewrite Hp, orb_true_r; reflexivity|].
  intros h2. unfold h2.
  rewrite (playFrom_starts render now' h1 Hne Hstop Hq1).
  rewrite E1. simpl. repeat split.
Qed.

(** X8 on the three-frame store: the render that saw it stopped plays
    twice. *)
Lemma play_twice_witness :
  let evs := [LoadGifBegin; LoadGifSettle (working threeFrameGif)] in
  let render := state (run evs initialHook) in
  let h := run evs initialHook in
  let h1 := playFrom render 0 h in
  let cl := mkClosure (frames render) (currentFrameIndex render) in
  (frames render ≠ [] ∧ isPlaying render = false)
  ∧ (isPlaying (state h1) = true
     ∧ animationRef h1 = Some (rafNextHandle h)
     ∧ rafCallbacks h1 = [(rafNextHandle h, cl)]
     ∧ lastTimeRef h1 = 0%Z ∧ frameTimeOffsetRef h1 = 0%Z)
  ∧ playFrom (state h1) 70 h1 = h1
  ∧ play 70 h1 = h1
  ∧ (let h2 := playFrom render 70 h1 in
     state h2 = state h1
     ∧ animationRef h2 = Some (Pos.succ (rafNextHandle h))
     ∧ rafCallbacks h2 = [(Pos.succ (rafNextHandle h), cl)]
     ∧ lastTimeRef h2 = 70%Z ∧ frameTimeOffsetRef h2 = 0%Z).
Proof.
  intros evs render h h1 cl.
  assert (Hne : frames render ≠ []) by (vm_compute; intros H; discriminate H).
  assert (Hstop : isPlaying render = false) by reflexivity.
  split; [split; assumption|].
  exact (play_twice evs render 0 70 Hne Hstop).
Defined.

(** X10.  With an empty frame list and [animationRef] null the hook is
    inert: the [play] of a render that saw no frames does nothing, and so
    does the current render's; no tick changes the state; rendering returns
    [false] without touching the canvas; an export is rejected.  The first
    step of a load puts the hook there, and a load that fails from there
    leaves it there. *)
Theorem nothing_runs_without_frames
    (h h0 : Hook) (render : AnimatedGifState) (b : Browser) (now : Z)
    (ts : list Tick) (canvas : Canvas) (fxo : option Effects) (fx : Effects)
    (imported : bool) :
  frames (state h0) = [] →
  animationRef h0 = None →
  frames render = [] →
  let idle h1 :=
    playFrom render now h1 = h1
    ∧ play now h1 = h1
    ∧ state (deliverAll ts h1) = state h1
    ∧ renderToCanvas (state h1) canvas fxo = (false, canvas)
    ∧ generateGif (state h1) imported canvas fx = Rejected NoFramesAvailable in
  idle h0
  ∧ (frames (state (loadGif_begin h)) = []
     ∧ animationRef (loadGif_begin h) = None
     ∧ idle (loadGif_begin h))
  ∧ match tryLoad b with
    | inl _ => (loadGif_settle b h0).2 = false ∧ idle (loadGif_settle b h0).1
    | inr _ => (loadGif_settle b h0).2 = true
    end.
Proof.
  intros Hnil0 Href0 Hrender.
  assert (Hidle : ∀ h1, frames (state h1) = [] → animationRef h1 = None →
            playFrom render now h1 = h1
            ∧ play now h1 = h1
            ∧ state (deliverAll ts h1) = state h1
            ∧ renderToCanvas (state h1) canvas fxo = (false, canvas)
            ∧ generateGif (state h1) imported canvas fx
              = Rejected NoFramesAvailable).
  { intros h1 Hnil Href.
    split; [unfold playFrom; rewrite Hrender; reflexivity|].
    split; [unfold play, playFrom; rewrite Hnil; reflexivity|].
    split; [apply (deliverAll_stopped ts h1 Href)|].
    split; [unfold renderToCanvas; rewrite Hnil; reflexivity|].
    unfold generateGif. rewrite Hnil. reflexivity. }
  assert (Hb : frames (state (loadGif_begin h)) = [])
    by (rewrite loadGif_begin_state; reflexivity).
  assert (Hr : animationRef (loadGif_begin h) = None)
    by (unfold loadGif_begin; simpl; apply cancelPending_ref).
  intros idle. split; [apply Hidle; assumption|].
  split; [split; [exact Hb|split; [exact Hr|apply Hidle; assumption]]|].
  unfold loadGif_settle.
  destruct (tryLoad b) as [m|[[w hgt] v]]; [|reflexivity].
  split; [reflexivity|]. apply Hidle; simpl; assumption.
Qed.

(** X10 on the three-frame store once a load has begun, the load failing
    for want of a network. *)
Lemma nothing_runs_without_frames_witness :
  let h := threeFrameHook in
  let h0 := loadGif_begin threeFrameHook in
  let render := state h0 in
  let canvas := mkCanvas (blank 2 2) true in
  let fx : Effects := Returned in
  let ts := [Queued 1%positive 40; Stale (mkClosure (frames (state h)) 0) 90] in
  let idle h1 :=
    playFrom render 5 h1 = h1
    ∧ play 5 h1 = h1
    ∧ state (deliverAll ts h1) = state h1
    ∧ renderToCanvas (state h1) canvas None = (false, canvas)
    ∧ generateGif (state h1) true canvas fx = Rejected NoFramesAvailable in
  (frames (state h0) = [] ∧ animationRef h0 = None ∧ frames render = [])
  ∧ idle h0
  ∧ (frames (state (loadGif_begin h)) = []
     ∧ animationRef (loadGif_begin h) = None
     ∧ idle (loadGif_begin h))
  ∧ match tryLoad offline with
    | inl _ => (loadGif_settle offline h0).2 = false
               ∧ idle (loadGif_settle offline h0).1
    | inr _ => (loadGif_settle offline h0).2 = true
    end.
Proof.
  intros h h0 render canvas fx ts idle.
  assert (H1 : frames (state h0) = []) by reflexivity.
  assert (H2 : animationRef h0 = None) by reflexivity.
  assert (H3 : frames render = []) by reflexivity.
  split; [repeat split; assumption|].
  exact (nothing_runs_without_frames h h0 render offline 5 ts canvas None fx
           true H1 H2 H3).
Defined.

(** *** A cursor that stays on a frame *)

Lemma step_cursorInv e h :
  match e with LoadGifSettle _ | PlayFrom _ _ => False | _ => True end →
  cursorInv h → queueInv h → cursorInv (step e h).
Proof.
  intros He [Hcur Hq] Hqi.
  destruct e as [|b|now| | |id timestamp|render now]; simpl;
    try contradiction.
  - unfold loadGif_begin, cursorInv. simpl.
    rewrite (cancelPending_queue h Hqi). split; [left; reflexivity|].
    intros e Hin. inversion Hin.
  - unfold play, playFrom.
    destruct (length (frames (state h)) =? 0) eqn:E0; simpl;
      [split; assumption|].
    destruct (isPlaying (state h)); simpl; [split; assumption|].
    unfold cursorInv. simpl.
    rewrite ?cancelPending_state, ?(cancelPending_queue h Hqi). simpl.
    split; [exact Hcur|].
    intros e Hin. apply list_elem_of_singleton in Hin. subst e. simpl.
    split; [reflexivity|].
    apply Nat.eqb_neq in E0. destruct Hcur as [Hnil|Hlt]; [|exact Hlt].
    rewrite Hnil in E0. contradiction.
  - unfold pause, cursorInv. simpl.
    rewrite ?cancelPending_state, ?(cancelPending_queue h Hqi). simpl.
    split; [exact Hcur|]. intros e Hin. inversion Hin.
  - unfold reset, cursorInv. simpl.
    rewrite ?cancelPending_state, ?(cancelPending_queue h Hqi). simpl.
    split.
    + destruct (frames (state h)); [left; reflexivity|right; simpl; lia].
    + intros e Hin. inversion Hin.
  - unfold runFrameCallback.
    destruct (list_find _ _) as [[i [i' cl]]|] eqn:Ef; [|split; assumption].
    apply list_find_Some in Ef. destruct Ef as (Hi & _ & _).
    destruct (Hq (i', cl) (list_elem_of_lookup_2 _ _ _ Hi)) as [Hcl Hl].
    apply animate_cursorInv; [|exact Hcl|exact Hl].
    split; simpl; [exact Hcur|].
    intros e Hin. apply list_elem_of_filter in Hin. destruct Hin as [_ Hin].
    apply (Hq e Hin).
Qed.

(** While a load is in flight and nothing but the current render's calls
    and the browser's ticks happen, the store stays empty and no tick is
    pending. *)
Lemma step_loading e h :
  match e with
  | LoadGifBegin | LoadGifSettle _ | PlayFrom _ _ => False
  | _ => True
  end →
  queueInv h → frames (state h) = [] → rafCallbacks h = [] →
  frames (state (step e h)) = [] ∧ rafCallbacks (step e h) = [].
Proof.
  intros He Hqi Hnil Hempty.
  destruct e as [|b|now| | |id timestamp|render now]; simpl;
    try contradiction.
  - unfold play, playFrom. rewrite Hnil. simpl. split; assumption.
  - unfold pause. simpl. rewrite cancelPending_state.
    split; [exact Hnil|apply cancelPending_queue, Hqi].
  - unfold reset. simpl. rewrite cancelPending_state.
    split; [exact Hnil|apply cancelPending_queue, Hqi].
  - unfold runFrameCallback. rewrite Hempty. simpl. split; assumption.
Qed.

Lemma loadGif_settle_cursorInv b h :
  cursorInv h → rafCallbacks h = [] → cursorInv (loadGif_settle b h).1.
Proof.
  intros [Hcur Hq] Hempty. unfold loadGif_settle.
  destruct (tryLoad b) as [m|[[w hgt] v]] eqn:E; simpl.
  - split; simpl; [exact Hcur|exact Hq].
  - split; simpl.
    + right. destruct (tryLoad_inr b w hgt v E) as (g & _ & _ & _ & Hc).
      destruct (composite_inv _ _ _ _ Hc) as (_ & Hlen & Hne).
      rewrite Hlen. destruct g; [contradiction|]. simpl. lia.
    + rewrite Hempty. intros e Hin. inversion Hin.
Qed.

Lemma run_orderly evs : ∀ loading h,
  orderly loading evs = true →
  cursorInv h → queueInv h →
  (loading = true → frames (state h) = [] ∧ rafCallbacks h = []) →
  cursorInv (run evs h).
Proof.
  induction evs as [|e evs IH]; intros loading h Ho Hc Hq Hl; [exact Hc|].
  change (run (e :: evs) h) with (run evs (step e h)).
  pose proof (step_queueInv e h Hq) as Hq'.
  destruct e as [|b|now| | |id timestamp|render now]; simpl in Ho.
  - apply andb_prop in Ho. destruct Ho as [_ Ho].
    apply (IH true); [exact Ho| |exact Hq'|].
    + apply step_cursorInv; [exact I|exact Hc|exact Hq].
    + intros _. simpl. unfold loadGif_begin. simpl.
      split; [reflexivity|]. apply cancelPending_queue, Hq.
  - apply andb_prop in Ho. destruct Ho as [Hload Ho].
    destruct (Hl Hload) as [_ Hempty].
    apply (IH false); [exact Ho| |exact Hq'|intros H; discriminate H].
    apply loadGif_settle_cursorInv; assumption.
  - apply (IH loading); [exact Ho| |exact Hq'|].
    + apply step_cursorInv; [exact I|exact Hc|exact Hq].
    + intros Hload. destruct (Hl Hload).
      apply step_loading; [exact I|assumption..].
  - apply (IH loading); [exact Ho| |exact Hq'|].
    + apply step_cursorInv; [exact I|exact Hc|exact Hq].
    + intros Hload. destruct (Hl Hload).
      apply step_loading; [exact I|assumption..].
  - apply (IH loading); [exact Ho| |exact Hq'|].
    + apply step_cursorInv; [exact I|exact Hc|exact Hq].
    + intros Hload. destruct (Hl Hload).
      apply step_loading; [exact I|assumption..].
  - apply (IH loading); [exact Ho| |exact Hq'|].
    + apply step_cursorInv; [exact I|exact Hc|exact Hq].
    + intros Hload. destruct (Hl Hload).
      apply step_loading; [exact I|assumption..].
  - discriminate Ho.
Qed.

(** X12.  Take a run in which a load begins only when none is in flight,
    every settling is that of the load in flight, and [play] is always the
    one of the current render; ticks, [play], [pause] and [reset] may fall
    anywhere, also between the two halves of a load.  Then the cursor is on
    a frame of the store (or the store is empty), and every pending
    [animate] closure holds the store's frames and an index into them:
    [animate] never reads a missing frame. *)
Theorem cursor_stays_on_a_frame (evs : list Event) :
  orderly false evs = true →
  let h := run evs initialHook in
  (frames (state h) = []
   ∨ currentFrameIndex (state h) < length (frames (state h)))
  ∧ Forall (λ e, closedFrames e.2 = frames (state h)
                 ∧ is_Some (closedFrames e.2 !! localFrameIndex e.2))
           (rafCallbacks h).
Proof.
  intros Ho h.
  destruct (run_orderly evs false initialHook Ho) as [Hcur Hq].
  - split; simpl; [left; reflexivity|]. intros e He. inversion He.
  - apply queueInv_empty. reflexivity.
  - intros H. discriminate H.
  - split; [exact Hcur|]. apply Forall_forall. intros e He.
    apply list_elem_of_In in He.
    destruct (Hq e He) as [Hcl Hl].
    split; [exact Hcl|]. apply lookup_lt_is_Some. rewrite Hcl. exact Hl.
Qed.

(** X12 on a run that plays during the load, then through the first frame
    of the three-frame store, pauses and resumes. *)
Lemma cursor_stays_on_a_frame_witness :
  let evs := [LoadGifBegin; Play 0; Pause;
              LoadGifSettle (working threeFrameGif); Play 10;
              FrameCallback 1%positive 120; Pause; Play 200;
              FrameCallback 2%positive 210] in
  let h := run evs initialHook in
  orderly false evs = true
  ∧ (frames (state h) = []
     ∨ currentFrameIndex (state h) < length (frames (state h)))
  ∧ Forall (λ e, closedFrames e.2 = frames (state h)
                 ∧ is_Some (closedFrames e.2 !! localFrameIndex e.2))
           (rafCallbacks h).
Proof.
  intros evs h.
  assert (Ho : orderly false evs = true) by reflexivity.
  split; [exact Ho|].
  exact (cursor_stays_on_a_frame evs Ho).
Defined.

(** *** Resuming *)

(** X14.  Pausing a playback and resuming: the [play] of the render that
    paused still sees [isPlaying = true] and does nothing.  The [play] of
    the render after the pause restarts the frame it was paused on: the
    cursor is kept, but the carry-over is 0 again, so the time already
    spent in that frame is discarded.  One tick is pending, for the closure
    over the current frames and cursor. *)
Theorem play_after_pause_restarts_the_frame (evs : list Event) (now : Z) :
  let h := run evs initialHook in
  frames (state h) ≠ [] →
  isPlaying (state h) = true →
  playFrom (state h) now (pause h) = pause h
  ∧ play now (pause h) = playFrom (state (pause h)) now (pause h)
  ∧ let h' := playFrom (state (pause h)) now (pause h) in
    isPlaying (state h') = true
    ∧ currentFrameIndex (state h') = currentFrameIndex (state h)
    ∧ frameTimeOffsetRef h' = 0%Z
    ∧ lastTimeRef h' = now
    ∧ animationRef h' = Some (rafNextHandle h)
    ∧ rafCallbacks h'
      = [(rafNextHandle h,
          mkClosure (frames (state h)) (currentFrameIndex (state h)))].
Proof.
  intros h Hne Hp.
  assert (Hq : queueInv h) by (apply reachable_queueInv; exists evs; reflexivity).
  assert (Hst : state (pause h) = withPlaying false (state h))
    by (unfold pause; simpl; rewrite cancelPending_state; reflexivity).
  split; [unfold playFrom; rewrite Hp, orb_true_r; reflexivity|].
  split; [reflexivity|].
  assert (Hqp : queueInv (pause h))
    by (apply (step_queueInv Pause h Hq)).
  intros h'. unfold h'.
  rewrite (playFrom_starts (state (pause h)) now (pause h));
    [|rewrite Hst; exact Hne|rewrite Hst; reflexivity|exact Hqp].
  rewrite Hst. simpl. unfold pause. simpl. rewrite cancelPending_next.
  repeat split.
Qed.

(** X14 on the three-frame store, paused half way through its first
    frame. *)
Lemma play_after_pause_restarts_the_frame_witness :
  let evs := [LoadGifBegin; LoadGifSettle (working threeFrameGif); Play 0;
              FrameCallback 1%positive 50] in
  let h := run evs initialHook in
  (frames (state h) ≠ [] ∧ isPlaying (state h) = true
   ∧ frameTimeOffsetRef h = 50%Z)
  ∧ playFrom (state h) 60 (pause h) = pause h
  ∧ play 60 (pause h) = playFrom (state (pause h)) 60 (pause h)
  ∧ let h' := playFrom (state (pause h)) 60 (pause h) in
    isPlaying (state h') = true
    ∧ currentFrameIndex (state h') = currentFrameIndex (state h)
    ∧ frameTimeOffsetRef h' = 0%Z
    ∧ lastTimeRef h' = 60%Z
    ∧ animationRef h' = Some (rafNextHandle h)
    ∧ rafCallbacks h'
      = [(rafNextHandle h,
          mkClosure (frames (state h)) (currentFrameIndex (state h)))].
Proof.
  intros evs h.
  assert (Hne : frames (state h) ≠ []) by (vm_compute; intros H; discriminate H).
  assert (Hp : isPlaying (state h) = true) by reflexivity.
  assert (Ho : frameTimeOffsetRef h = 50%Z) by reflexivity.
  split; [repeat split; assumption|].
  exact (play_after_pause_restarts_the_frame evs 60 Hne Hp).
Defined.

(** ** The presets hook *)

Lemma Presets_find_cons {G S} (j : string) (p : Presets.EffectPreset G S) l :
  Presets.find j (p :: l)
  = if decide (Presets.id p = j) then Some p else Presets.find j l.
Proof.
  unfold Presets.find. simpl.
  destruct (decide (Presets.id p = j)); [reflexivity|].
  destruct (list_find _ l) as [[i q]|]; reflexivity.
Qed.

Lemma Presets_find_elem {G S} (j : string) (l : list (Presets.EffectPreset G S)) p :
  Presets.find j l = Some p → p ∈ l ∧ Presets.id p = j.
Proof.
  induction l as [|q l IH]; [discriminate|].
  rewrite Presets_find_cons.
  destruct (decide (Presets.id q = j)) as [E|E].
  - intros H. injection H as <-. split; [left|exact E].
  - intros H. destruct (IH H) as [Hin Hid]. split; [right; exact Hin|exact Hid].
Qed.

Lemma Presets_find_app {G S} (j : string) (l : list (Presets.EffectPreset G S)) q :
  Presets.find j (l ++ [q])
  = match Presets.find j l with
    | Some p => Some p
    | None => if decide (Presets.id q = j) then Some q else None
    end.
Proof.
  induction l as [|p l IH]; simpl.
  - rewrite Presets_find_cons. reflexivity.
  - rewrite !Presets_find_cons.
    destruct (decide (Presets.id p = j)); [reflexivity|exact IH].
Qed.

Lemma Presets_find_filter {G S} (i j : string)
    (l : list (Presets.EffectPreset G S)) :
  Presets.find j (filter (λ p, Presets.id p ≠ i) l)
  = if decide (j = i) then None else Presets.find j l.
Proof.
  induction l as [|p l IH]; simpl.
  - destruct (decide (j = i)); reflexivity.
  - rewrite filter_cons. rewrite Presets_find_cons.
    destruct (decide (Presets.id p ≠ i)) as [Hne|Heq].
    + rewrite Presets_find_cons, IH.
      destruct (decide (Presets.id p = j)) as [E|E];
        destruct (decide (j = i)); try reflexivity. congruence.
    + rewrite IH. apply dec_stable in Heq.
      destruct (decide (j = i)); [reflexivity|].
      destruct (decide (Presets.id p = j)); [congruence|reflexivity].
Qed.

Lemma Presets_flipped_twice {G S} (p : Presets.EffectPreset G S) :
  Presets.flipped (Presets.flipped p) = p.
Proof. destruct p. unfold Presets.flipped. simpl. rewrite negb_involutive. reflexivity. Qed.

(** X15.  Toggling the favourite flag of a preset twice gives back the
    state it started from, list and current preset alike. *)
Theorem toggleFavorite_twice {G S} (presetId : string)
    (st : Presets.PresetState G S) :
  Presets.toggleFavorite presetId (Presets.toggleFavorite presetId st) = st.
Proof.
  destruct st as [ps cur]. unfold Presets.toggleFavorite. simpl. f_equal.
  - rewrite <- list_fmap_compose. rewrite <- (list_fmap_id ps) at 2.
    apply list_fmap_ext. intros _ p _. simpl.
    destruct (bool_decide (Presets.id p = presetId)) eqn:E; simpl.
    + rewrite E. apply Presets_flipped_twice.
    + rewrite E. reflexivity.
  - destruct cur as [p|]; simpl; [|reflexivity].
    destruct (bool_decide (Presets.id p = presetId)) eqn:E; simpl.
    + rewrite E. simpl. rewrite Presets_flipped_twice. reflexivity.
    + rewrite E. reflexivity.
Qed.

(** X16.  After [deletePreset] no preset in the list answers to the
    deleted id, and the current preset is never one with that id; looking
    up any other id gives what it gave before.  The [applyPreset] of the
    render after the deletion returns null on the deleted id and leaves no
    current preset.  The [applyPreset] of the render before it still
    searches the old list: it returns what that list held under the id and
    makes it current, though the list no longer has it. *)
Theorem deletePreset_removes_the_id {G S} (presetId other : string)
    (st : Presets.PresetState G S) :
  other ≠ presetId →
  let st' := Presets.deletePreset presetId st in
  Presets.find presetId (Presets.presets st') = None
  ∧ Presets.isCurrent presetId (Presets.currentPreset st') = false
  ∧ Presets.find other (Presets.presets st')
    = Presets.find other (Presets.presets st)
  ∧ Presets.currentPreset st'
    = (if Presets.isCurrent presetId (Presets.currentPreset st)
       then None else Presets.currentPreset st)
  ∧ Presets.applyPreset presetId st'
    = (Presets.mkPresetState (Presets.presets st') None, None)
  ∧ Presets.applyPresetFrom (Presets.presets st) presetId st'
    = (Presets.mkPresetState (Presets.presets st')
         (Presets.find presetId (Presets.presets st)),
       Presets.find presetId (Presets.presets st)).
Proof.
  intros Hne st'.
  assert (Hnone : Presets.find presetId (Presets.presets st') = None).
  { unfold st', Presets.deletePreset. simpl. rewrite Presets_find_filter.
    rewrite decide_True by reflexivity. reflexivity. }
  split; [exact Hnone|].
  split.
  { unfold st', Presets.deletePreset. simpl.
    destruct (Presets.isCurrent presetId (Presets.currentPreset st)) eqn:E;
      [reflexivity|exact E]. }
  split.
  { unfold st', Presets.deletePreset. simpl. rewrite Presets_find_filter.
    rewrite decide_False by exact Hne. reflexivity. }
  split; [reflexivity|].
  split; [|reflexivity].
  unfold Presets.applyPreset, Presets.applyPresetFrom. rewrite Hnone.
  reflexivity.
Qed.

(** X16 on two presets, deleting the current one: the stale [applyPreset]
    brings it back as the current preset. *)
Lemma deletePreset_removes_the_id_witness :
  let st := Presets.mkPresetState [Presets.rgbSplit; Presets.waves]
                                  (Some Presets.rgbSplit) in
  let st' := Presets.deletePreset "preset-1" st in
  "preset-2"%string ≠ "preset-1"%string
  ∧ Presets.find "preset-1" (Presets.presets st') = None
  ∧ Presets.isCurrent "preset-1" (Presets.currentPreset st') = false
  ∧ Presets.find "preset-2" (Presets.presets st')
    = Presets.find "preset-2" (Presets.presets st)
  ∧ Presets.currentPreset st'
    = (if Presets.isCurrent "preset-1" (Presets.currentPreset st)
       then None else Presets.currentPreset st)
  ∧ Presets.applyPreset "preset-1" st'
    = (Presets.mkPresetState (Presets.presets st') None, None)
  ∧ Presets.applyPresetFrom (Presets.presets st) "preset-1" st'
    = (Presets.mkPresetState (Presets.presets st')
         (Presets.find "preset-1" (Presets.presets st)),
       Presets.find "preset-1" (Presets.presets st)).
Proof.
  intros st st'.
  assert (Hne : "preset-2"%string ≠ "preset-1"%string)
    by (intros H; discriminate H).
  split; [exact Hne|].
  exact (deletePreset_removes_the_id "preset-1" "preset-2" st Hne).
Defined.

(** X17.  [saveAsPreset] appends the new preset, makes it current and
    returns it; its id is "preset-" followed by the clock's milliseconds.
    Looking that id up with the [applyPreset] of the render after the save
    returns the first preset carrying it: the new preset when the id is
    fresh, an older one when two presets were saved in the same
    millisecond.  The [applyPreset] of the render that saved searches the
    list without the new preset: on a fresh id it returns null and leaves
    no current preset. *)
Theorem saveAsPreset_appends {G S} (name description : string)
    (glitchOptions : G) (shaderOptions : option S) (tags : list string)
    (nowIso nowMillis : string) (st : Presets.PresetState G S) :
  let r := Presets.saveAsPreset name description glitchOptions shaderOptions
             tags nowIso nowMillis st in
  Presets.presets r.1 = Presets.presets st ++ [r.2]
  ∧ Presets.currentPreset r.1 = Some r.2
  ∧ Presets.id r.2 = String.append "preset-" nowMillis
  ∧ Presets.isFavorite r.2 = false
  ∧ Presets.createdAt r.2 = nowIso ∧ Presets.updatedAt r.2 = nowIso
  ∧ Presets.applyPreset (Presets.id r.2) r.1
    = (Presets.mkPresetState (Presets.presets r.1)
         (Some (default r.2
                  (Presets.find (Presets.id r.2) (Presets.presets st)))),
       Some (default r.2 (Presets.find (Presets.id r.2) (Presets.presets st))))
  ∧ Presets.applyPresetFrom (Presets.presets st) (Presets.id r.2) r.1
    = (Presets.mkPresetState (Presets.presets r.1)
         (Presets.find (Presets.id r.2) (Presets.presets st)),
       Presets.find (Presets.id r.2) (Presets.presets st)).
Proof.
  intros r.
  unfold r, Presets.saveAsPreset, Presets.applyPreset, Presets.applyPresetFrom.
  simpl. repeat split. rewrite Presets_find_app. simpl.
  destruct (Presets.find _ (Presets.presets st)); [reflexivity|].
  rewrite decide_True by reflexivity. reflexivity.
Qed.

(** X18.  Editing or starring a preset never changes the number or order of
    the presets, nor any preset's id or creation time. *)
Theorem update_and_toggle_keep_ids {G S} (presetId : string)
    (u : Presets.Updates G S) (nowIso : string)
    (st : Presets.PresetState G S) :
  let key (p : Presets.EffectPreset G S) :=
    (Presets.id p, Presets.createdAt p) in
  key <$> Presets.presets (Presets.updatePreset presetId u nowIso st)
  = key <$> Presets.presets st
  ∧ key <$> Presets.presets (Presets.toggleFavorite presetId st)
    = key <$> Presets.presets st
  ∧ key <$> Presets.currentPreset (Presets.updatePreset presetId u nowIso st)
    = key <$> Presets.currentPreset st
  ∧ key <$> Presets.currentPreset (Presets.toggleFavorite presetId st)
    = key <$> Presets.currentPreset st.
Proof.
  intros key. unfold Presets.updatePreset, Presets.toggleFavorite. simpl.
  split; [|split; [|split]].
  - rewrite <- list_fmap_compose. apply list_fmap_ext. intros _ p _. simpl.
    destruct (bool_decide (Presets.id p = presetId)); reflexivity.
  - rewrite <- list_fmap_compose. apply list_fmap_ext. intros _ p _. simpl.
    destruct (bool_decide (Presets.id p = presetId)); reflexivity.
  - destruct (Presets.currentPreset st) as [p|]; simpl; [|reflexivity].
    destruct (bool_decide (Presets.id p = presetId)); reflexivity.
  - destruct (Presets.currentPreset st) as [p|]; simpl; [|reflexivity].
    destruct (bool_decide (Presets.id p = presetId)); reflexivity.
Qed.

Lemma Presets_act_listed {G S} (defaults : list (Presets.EffectPreset G S))
    (a : Presets.Action G S) (st : Presets.PresetState G S) :
  Presets.currentRender a = true →
  Presets.listed st → Presets.listed (Presets.act defaults a st).
Proof.
  intros Ha Hl.
  destruct a as [i|n d g s t nowIso nowMillis|i u nowIso|i|i| |l i];
    [| | | | | |discriminate Ha];
    unfold Presets.listed; simpl.
  - intros p Hp. apply (Presets_find_elem i _ p Hp).
  - intros p Hp. injection Hp as <-. apply elem_of_app. right. left.
  - destruct (Presets.currentPreset st) as [q|] eqn:Ec; simpl;
      [|intros p Hp; discriminate Hp].
    pose proof (Hl q Ec) as Hq.
    destruct (bool_decide (Presets.id q = i)) eqn:E; simpl; intros p Hp;
      injection Hp as <-.
    + apply list_elem_of_fmap. exists q. rewrite E. auto.
    + apply list_elem_of_fmap. exists q. rewrite E. auto.
  - destruct (Presets.currentPreset st) as [q|] eqn:Ec; simpl;
      [|intros p Hp; discriminate Hp].
    pose proof (Hl q Ec) as Hq.
    destruct (bool_decide (Presets.id q = i)) eqn:E; simpl; intros p Hp;
      [discriminate Hp|]. injection Hp as <-.
    apply list_elem_of_filter. split; [|exact Hq].
    apply bool_decide_eq_false in E. exact E.
  - destruct (Presets.currentPreset st) as [q|] eqn:Ec; simpl;
      [|intros p Hp; discriminate Hp].
    pose proof (Hl q Ec) as Hq.
    destruct (bool_decide (Presets.id q = i)) eqn:E; simpl; intros p Hp;
      injection Hp as <-.
    + apply list_elem_of_fmap. exists q. rewrite E. auto.
    + apply list_elem_of_fmap. exists q. rewrite E. auto.
  - intros p Hp. discriminate Hp.
Qed.

Lemma Presets_loadEffect_listed {G S}
    (defaults : list (Presets.EffectPreset G S)) (ls : Presets.Storage G S) :
  Presets.listed (Presets.loadEffect defaults ls Presets.initialPresetState).
Proof.
  unfold Presets.loadEffect, Presets.listed.
  destruct (Presets.storedPresets ls) as [| |ps]; simpl.
  - destruct (Presets.storedCurrent ls) as [i|]; simpl;
      [destruct (bool_decide (i = ""%string)); simpl|];
      intros p Hp; discriminate Hp.
  - intros p Hp. discriminate Hp.
  - destruct (Presets.storedCurrent ls) as [i|]; simpl;
      [destruct (bool_decide (i = ""%string)); simpl|];
      intros p Hp; try discriminate Hp.
    apply (Presets_find_elem i _ p Hp).
Qed.

(** X19.  Whether storage held a preset list, nothing or unreadable text
    at mount, after any calls of [saveAsPreset], [updatePreset],
    [deletePreset], [toggleFavorite], [resetToDefaults] and [applyPreset]
    in which [applyPreset] is always the one of the current render, the
    current preset -- when there is one -- is one of the presets in the
    list, with every field equal. *)
Theorem current_preset_is_listed {G S}
    (defaults : list (Presets.EffectPreset G S)) (ls : Presets.Storage G S)
    (acts : list (Presets.Action G S)) :
  Forall (λ a, Presets.currentRender a = true) acts →
  Forall (λ p, p ∈ Presets.presets
                     (Presets.actAll defaults acts
                        (Presets.loadEffect defaults ls
                           Presets.initialPresetState)))
         (option_list
            (Presets.currentPreset
               (Presets.actAll defaults acts
                  (Presets.loadEffect defaults ls
                     Presets.initialPresetState)))).
Proof.
  intros Hacts.
  assert (H : ∀ acts, Forall (λ a, Presets.currentRender a = true) acts →
              ∀ st, Presets.listed st →
                Presets.listed (Presets.actAll defaults acts st)).
  { clear acts Hacts. induction acts as [|a acts IH]; intros Hall st Hl;
      [exact Hl|].
    inversion Hall as [|a0 l0 Ha Hall']; subst a0 l0.
    simpl. apply (IH Hall'), Presets_act_listed; assumption. }
  specialize (H acts Hacts _ (Presets_loadEffect_listed defaults ls)).
  unfold Presets.listed in H.
  destruct (Presets.currentPreset _) as [p|]; simpl; constructor; auto.
Qed.

(** X19 on a store holding the two sample presets: one is applied, starred
    and edited, the other deleted, and a new one saved. *)
Lemma current_preset_is_listed_witness :
  let ls := Presets.mkStorage (Presets.Stored [Presets.rgbSplit; Presets.waves])
                              (Some "preset-2"%string) in
  let acts :=
    [Presets.ApplyPreset "preset-1"; Presets.ToggleFavorite "preset-1";
     Presets.UpdatePreset "preset-1"
       (Presets.mkUpdates (Some "Split"%string) None None None None None)
       "2024-02-01T00:00:00.000Z";
     Presets.DeletePreset "preset-2";
     Presets.SaveAsPreset "Mine" "" 3 None [] "2024-02-02T00:00:00.000Z"
       "1706832000000"] in
  Forall (λ a, Presets.currentRender a = true) acts
  ∧ Forall (λ p, p ∈ Presets.presets
                       (Presets.actAll [Presets.rgbSplit] acts
                          (Presets.loadEffect [Presets.rgbSplit] ls
                             Presets.initialPresetState)))
           (option_list
              (Presets.currentPreset
                 (Presets.actAll [Presets.rgbSplit] acts
                    (Presets.loadEffect [Presets.rgbSplit] ls
                       Presets.initialPresetState)))).
Proof.
  intros ls acts.
  assert (Hacts : Forall (λ a, Presets.currentRender a = true) acts)
    by (repeat constructor).
  split; [exact Hacts|].
  exact (current_preset_is_listed [Presets.rgbSplit] ls acts Hacts).
Defined.

(** X20.  What the save effect writes, the load effect of the next mount
    reads back: the same presets in the same order and the same current
    preset, provided the store could be written and the current preset, if
    any, has a non-empty id and is the first preset under that id.  (The
    JSON text under the presets key is taken as what [JSON.parse] makes of
    it.) *)
Theorem presets_survive_a_reload {G S}
    (defaults : list (Presets.EffectPreset G S))
    (st : Presets.PresetState G S) (ls : Presets.Storage G S) :
  Presets.restorable st →
  Presets.loadEffect defaults (Presets.saveEffect true st ls)
                     Presets.initialPresetState
  = st.
Proof.
  intros Hr. destruct st as [ps cur].
  unfold Presets.restorable in Hr. simpl in Hr.
  unfold Presets.loadEffect, Presets.saveEffect. simpl.
  destruct cur as [p|]; simpl; [|reflexivity].
  destruct Hr as [Hne Hfind].
  rewrite bool_decide_eq_false_2 by exact Hne. rewrite Hfind. reflexivity.
Qed.

(** X20 on two presets with the second one current. *)
Lemma presets_survive_a_reload_witness :
  let st := Presets.mkPresetState [Presets.rgbSplit; Presets.waves]
                                  (Some Presets.waves) in
  Presets.restorable st
  ∧ Presets.loadEffect [Presets.rgbSplit]
      (Presets.saveEffect true st (Presets.mkStorage Presets.Absent None))
      Presets.initialPresetState
    = st.
Proof.
  intros st.
  assert (Hr : Presets.restorable st).
  { split; [intros H; discriminate H|reflexivity]. }
  split; [exact Hr|].
  exact (presets_survive_a_reload [Presets.rgbSplit] st
           (Presets.mkStorage Presets.Absent None) Hr).
Defined.

Lemma prefix_append (a s : string) : String.prefix a (String.append a s) = true.
Proof.
  induction a as [|c a IH]; simpl.
  - destruct s; reflexivity.
  - destruct (Ascii.ascii_dec c c); [exact IH|contradiction].
Qed.

Lemma Presets_imported_ids {G S} (stamp : nat → string)
    (l : list (Presets.RawPreset G S * G)) :
  Presets.id <$> imap (Presets.withNewId stamp) l
  = (λ k, String.append "imported-" (stamp k)) <$> seq 0 (length l).
Proof.
  apply list_eq. intros i.
  rewrite !list_lookup_fmap, list_lookup_imap.
  destruct (l !! i) as [rg|] eqn:E; simpl.
  - rewrite lookup_seq_lt by (apply lookup_lt_Some in E; exact E).
    reflexivity.
  - rewrite lookup_seq_ge by (apply lookup_ge_None in E; lia). reflexivity.
Qed.

(** X21.  [importPresets] returns [false] and changes nothing when the text
    does not parse.  When it parses to something that is not an array, or
    to an array with a null entry, the call returns [true] and its state
    update throws.  Otherwise the update keeps the current preset and adds
    one preset per entry that is an object with a non-empty id, a non-empty
    name and glitch options -- after the existing presets, or in their
    place when [replace] is set.  No imported preset keeps its own id: the
    [k]-th one gets "imported-" followed by the [k]-th stamp. *)
Theorem importPresets_adds_valid_entries {G S}
    (json : Presets.Json G S) (replace : bool) (stamp : nat → string)
    (st : Presets.PresetState G S) :
  match json with
  | Presets.SyntaxError =>
      Presets.importFile json replace stamp st = Presets.ReturnedFalse
  | Presets.NotAnArray =>
      Presets.importFile json replace stamp st = Presets.UpdaterThrew
  | Presets.ArrayOf entries =>
      if existsb Presets.isNull entries
      then Presets.importFile json replace stamp st = Presets.UpdaterThrew
      else
        let valid :=
          omap Presets.validated (omap Presets.asObject entries) in
        ∃ st' added,
          Presets.importFile json replace stamp st = Presets.Imported st'
          ∧ Presets.currentPreset st' = Presets.currentPreset st
          ∧ Presets.presets st'
            = (if replace then [] else Presets.presets st) ++ added
          ∧ length added = length valid
          ∧ Presets.name <$> added = (λ rg, Presets.rawName rg.1) <$> valid
          ∧ Presets.glitchOptions <$> added = snd <$> valid
          ∧ Presets.id <$> added
            = (λ k, String.append "imported-" (stamp k))
                <$> seq 0 (length valid)
  end.
Proof.
  destruct json as [| |entries]; [reflexivity..|].
  unfold Presets.importFile.
  destruct (existsb Presets.isNull entries); [reflexivity|].
  set (valid := omap Presets.validated (omap Presets.asObject entries)).
  exists (Presets.importPresets
            (Presets.ParsedList (omap Presets.asObject entries))
            replace stamp st).1,
         (imap (Presets.withNewId stamp) valid).
  split; [reflexivity|]. split; [reflexivity|].
  split; [simpl; destruct replace; reflexivity|].
  split; [apply length_imap|].
  split; [|split; [|apply Presets_imported_ids]].
  - apply list_eq. intros i.
    rewrite !list_lookup_fmap, list_lookup_imap.
    destruct (valid !! i); reflexivity.
  - apply list_eq. intros i.
    rewrite !list_lookup_fmap, list_lookup_imap.
    destruct (valid !! i); reflexivity.
Qed.

(** X22.  Importing with [replace] keeps the current preset selected even
    though it is no longer among the presets: every preset in the list now
    has an "imported-" id, so a current preset whose id does not start that
    way has no counterpart in the list. *)
Theorem import_replace_orphans_current {G S}
    (importedPresets : list (Presets.RawPreset G S)) (stamp : nat → string)
    (st : Presets.PresetState G S) (p : Presets.EffectPreset G S) :
  Presets.currentPreset st = Some p →
  String.prefix "imported-" (Presets.id p) = false →
  let st' :=
    (Presets.importPresets (Presets.ParsedList importedPresets) true stamp st).1 in
  Presets.currentPreset st' = Some p
  ∧ (p ∉ Presets.presets st')
  ∧ Presets.find (Presets.id p) (Presets.presets st') = None.
Proof.
  intros Hcur Hpre st'. unfold st'. simpl.
  assert (Hids : ∀ q, q ∈ imap (Presets.withNewId stamp)
                              (omap Presets.validated importedPresets) →
                      Presets.id q ≠ Presets.id p).
  { intros q Hq E. apply elem_of_lookup_imap in Hq.
    destruct Hq as (k & rg & -> & _).
    change (String.append "imported-" (stamp k) = Presets.id p) in E.
    rewrite <- E, prefix_append in Hpre. discriminate Hpre. }
  split; [exact Hcur|]. split.
  - intros Hin. apply (Hids p Hin). reflexivity.
  - destruct (Presets.find _ _) as [q|] eqn:Ef; [|reflexivity].
    apply Presets_find_elem in Ef. destruct Ef as [Hin Hid].
    destruct (Hids q Hin Hid).
Qed.

(** X22 with the first sample preset current and the second one imported
    from a file. *)
Lemma import_replace_orphans_current_witness :
  let st := Presets.mkPresetState [Presets.rgbSplit; Presets.waves]
                                  (Some Presets.rgbSplit) in
  let file :=
    [Presets.mkRaw "preset-2" "Waves" "Animated wave distortion" (Some 2)
                   (Some tt) "2024-01-01T00:00:00.000Z"
                   "2024-01-02T00:00:00.000Z" true ["wave"]%string] in
  let st' :=
    (Presets.importPresets (Presets.ParsedList file) true
       (λ _, "1700000000000-k3j9x2q1z"%string) st).1 in
  (Presets.currentPreset st = Some Presets.rgbSplit
   ∧ String.prefix "imported-" (Presets.id Presets.rgbSplit) = false)
  ∧ Presets.currentPreset st' = Some Presets.rgbSplit
  ∧ (Presets.rgbSplit ∉ Presets.presets st')
  ∧ Presets.find (Presets.id Presets.rgbSplit) (Presets.presets st') = None.
Proof.
  intros st file st'.
  assert (Hcur : Presets.currentPreset st = Some Presets.rgbSplit)
    by reflexivity.
  assert (Hpre : String.prefix "imported-" (Presets.id Presets.rgbSplit) = false)
    by reflexivity.
  split; [split; assumption|].
  exact (import_replace_orphans_current file
           (λ _, "1700000000000-k3j9x2q1z"%string) st Presets.rgbSplit
           Hcur Hpre).
Defined.
